(** * aiSolver: a shallow embedding of [src/lib/aiSolver.ts]

    The puzzle solver is a handful of string codecs, four solving
    strategies and a dispatcher.  The embedding keeps the shape of the
    TypeScript source: one Rocq function per source function, with the
    same name, and the platform primitives the source calls ([atob],
    [parseInt], [String.fromCharCode], [split], regular-expression
    tests ...) written out after ECMA-262 and the WHATWG Infra standard.

    - A JS string is the list of its UTF-16 code units ([jsstring]).
    - A JS number is an IEEE-754 binary64.  The string-processing paths
      only ever hold integer-valued doubles, the infinities and NaN
      ([number]); rounding to binary64 is written out in [toDouble].
      The one fractional computation of the source,
      [Math.random() * maxAttempts * 0.7], is carried out on
      [spec_float], the bit-level binary64 of the Standard Library.
    - The [for] loop of [isPrime] and the [while] loop of
      [getNextPrime] carry no bound in the source: their models take a
      fuel argument and return [None] when it runs out before a
      [return] is reached.  Every other loop runs over a finite list.
    - [timeMs] reads the wall clock ([Date.now]) and is left out of
      [SolverResult]; no other field depends on it. *)

From Stdlib Require Import String Ascii.
From Stdlib Require Import ZArith List Bool Lia.
From Stdlib Require Import SpecFloat.
Import ListNotations.
Open Scope Z_scope.

(** ** JS strings *)

Definition jsstring := list Z.

(** A source literal, as its list of code units. *)
Definition lit (s : string) : jsstring :=
  map (fun a => Z.of_N (N_of_ascii a)) (list_ascii_of_string s).

Definition str_eqb (a b : jsstring) : bool :=
  if list_eq_dec Z.eq_dec a b then true else false.

Definition in_range (lo hi c : Z) : bool := (lo <=? c) && (c <=? hi).

(** [WhiteSpace] and [LineTerminator] of ECMA-262: what [\s] matches,
    what [trim] removes and what [parseInt] skips. *)
Definition isLineTerminator (c : Z) : bool :=
  (c =? 10) || (c =? 13) || (c =? 8232) || (c =? 8233).

Definition isWhiteSpace (c : Z) : bool :=
  in_range 9 13 c || (c =? 32) || (c =? 160) || (c =? 5760)
  || in_range 8192 8202 c || (c =? 8232) || (c =? 8233) || (c =? 8239)
  || (c =? 8287) || (c =? 12288) || (c =? 65279).

Fixpoint trimStart (s : jsstring) : jsstring :=
  match s with
  | c :: rest => if isWhiteSpace c then trimStart rest else s
  | [] => []
  end.

Definition trim (s : jsstring) : jsstring :=
  rev (trimStart (rev (trimStart s))).

(** [s.split(sep)] for a one-unit separator: never the empty list. *)
Fixpoint split (sep : Z) (s : jsstring) : list jsstring :=
  match s with
  | [] => [[]]
  | c :: rest =>
      if c =? sep then [] :: split sep rest
      else match split sep rest with
           | tok :: toks => (c :: tok) :: toks
           | [] => [[c]]
           end
  end.

Fixpoint startsWith (p s : jsstring) : bool :=
  match p, s with
  | [], _ => true
  | _ :: _, [] => false
  | a :: p', b :: s' => (a =? b) && startsWith p' s'
  end.

Fixpoint includes (s p : jsstring) : bool :=
  startsWith p s ||
  match s with
  | [] => false
  | _ :: s' => includes s' p
  end.

(** ** JS numbers on the string paths *)

Inductive number : Type :=
  | NaN
  | Num (z : Z)
  | Inf (neg : bool).

(** Round a mathematical integer to binary64, ties to even; magnitudes
    that round to [2^1024] overflow to an infinity. *)
Definition toDouble (z : Z) : number :=
  let a := Z.abs z in
  let s := Z.log2 a + 1 - 53 in
  if s <=? 0 then Num z
  else
    let q := a / 2 ^ s in
    let r := a mod 2 ^ s in
    let half := 2 ^ (s - 1) in
    let q' := if r <? half then q
              else if half <? r then q + 1
              else if Z.even q then q else q + 1 in
    let a' := q' * 2 ^ s in
    if 2 ^ 1024 <=? a' then Inf (z <? 0) else Num (Z.sgn z * a').

Definition isNaN (n : number) : bool :=
  match n with NaN => true | _ => false end.

(** [x + y] on numbers. *)
Definition num_add (x y : number) : number :=
  match x, y with
  | NaN, _ | _, NaN => NaN
  | Inf a, Inf b => if Bool.eqb a b then Inf a else NaN
  | Inf a, _ => Inf a
  | _, Inf b => Inf b
  | Num a, Num b => toDouble (a + b)
  end.

(** [x < y]: false as soon as one side is NaN. *)
Definition num_ltb (x y : number) : bool :=
  match x, y with
  | NaN, _ | _, NaN => false
  | Inf true, Inf true => false
  | Inf true, _ => true
  | _, Inf true => false
  | Inf false, _ => false
  | _, Inf false => true
  | Num a, Num b => a <? b
  end.

(** [ToUint16] and [ToInt32]. *)
Definition toUint16 (n : number) : Z :=
  match n with
  | Num z => z mod 65536
  | _ => 0
  end.

Definition toInt32 (n : number) : Z :=
  match n with
  | Num z => (z + 2 ^ 31) mod 2 ^ 32 - 2 ^ 31
  | _ => 0
  end.

Definition fromCharCode (n : number) : Z := toUint16 n.

(** [x ^ y]. *)
Definition num_xor (x y : number) : number :=
  Num (Z.lxor (toInt32 x) (toInt32 y)).

(** *** parseInt *)

Definition digitValue (c : Z) : option Z :=
  if in_range 48 57 c then Some (c - 48)
  else if in_range 97 122 c then Some (c - 87)
  else if in_range 65 90 c then Some (c - 55)
  else None.

Definition radixDigit (R c : Z) : option Z :=
  match digitValue c with
  | Some d => if d <? R then Some d else None
  | None => None
  end.

(** The longest prefix of radix-[R] digits, most significant first:
    [acc] is the value read so far, [seen] whether a digit was read. *)
Fixpoint parseDigits (R : Z) (s : jsstring) (acc : Z) (seen : bool)
  : option Z :=
  match s with
  | c :: rest =>
      match radixDigit R c with
      | Some d => parseDigits R rest (acc * R + d) true
      | None => if seen then Some acc else None
      end
  | [] => if seen then Some acc else None
  end.

(** [parseInt(s, radix)]; [radix = 0] stands for an omitted radix.  The
    value is exact in the radix and then rounded to binary64 (in radix
    10 an engine may ignore digits past the twentieth; the model keeps
    them).  No distinction is made between [+0] and [-0], which behave
    alike in every operation of the source. *)
Definition parseInt (s : jsstring) (radix : Z) : number :=
  let S1 := trimStart s in
  let neg := match S1 with c :: _ => c =? 45 | [] => false end in
  let S2 := match S1 with
            | c :: rest => if (c =? 43) || (c =? 45) then rest else S1
            | [] => S1
            end in
  if negb (radix =? 0) && ((radix <? 2) || (36 <? radix)) then NaN
  else
    let stripPrefix := (radix =? 0) || (radix =? 16) in
    let R0 := if radix =? 0 then 10 else radix in
    let '(R, S3) :=
      match S2 with
      | a :: b :: rest =>
          if stripPrefix && (a =? 48) && ((b =? 120) || (b =? 88))
          then (16, rest) else (R0, S2)
      | _ => (R0, S2)
      end in
    match parseDigits R S3 0 false with
    | None => NaN
    | Some m => toDouble (if neg then - m else m)
    end.

(** *** atob: forgiving-base64 decode (WHATWG Infra) *)

Definition isAsciiWhitespace (c : Z) : bool :=
  (c =? 9) || (c =? 10) || (c =? 12) || (c =? 13) || (c =? 32).

Definition base64Value (c : Z) : option Z :=
  if in_range 65 90 c then Some (c - 65)
  else if in_range 97 122 c then Some (c - 71)
  else if in_range 48 57 c then Some (c + 4)
  else if c =? 43 then Some 62
  else if c =? 47 then Some 63
  else None.

Definition stripPadding (d : jsstring) : jsstring :=
  if Z.of_nat (length d) mod 4 =? 0 then
    match rev d with
    | 61 :: 61 :: r => rev r
    | 61 :: r => rev r
    | _ => d
    end
  else d.

Fixpoint base64Values (d : jsstring) : option (list Z) :=
  match d with
  | [] => Some []
  | c :: rest =>
      match base64Value c, base64Values rest with
      | Some v, Some vs => Some (v :: vs)
      | _, _ => None
      end
  end.

Fixpoint base64Bytes (vs : list Z) : list Z :=
  match vs with
  | a :: b :: c :: d :: rest =>
      let w := a * 262144 + b * 4096 + c * 64 + d in
      (w / 65536) :: (w / 256 mod 256) :: (w mod 256) :: base64Bytes rest
  | [a; b; c] =>
      let w := a * 4096 + b * 64 + c in
      [w / 1024; w / 4 mod 256]
  | [a; b] => [(a * 64 + b) / 16]
  | _ => []
  end.

(** [None] is the [InvalidCharacterError] that [atob] throws. *)
Definition atob (input : jsstring) : option jsstring :=
  let d := stripPadding (filter (fun c => negb (isAsciiWhitespace c)) input) in
  if Z.of_nat (length d) mod 4 =? 1 then None
  else match base64Values d with
       | Some vs => Some (base64Bytes vs)
       | None => None
       end.

(** *** Number.prototype.toString *)

Fixpoint decimalFuel (fuel : nat) (z : Z) (acc : jsstring) : jsstring :=
  match fuel with
  | O => acc
  | S f =>
      let acc' := (48 + z mod 10) :: acc in
      if z <? 10 then acc' else decimalFuel f (z / 10) acc'
  end.

(** The decimal digits of a non-negative integer. *)
Definition decimal (z : Z) : jsstring :=
  decimalFuel (S (Z.to_nat (Z.log2 z))) z [].

Definition num_eqb (x y : number) : bool :=
  match x, y with
  | Num a, Num b => a =? b
  | Inf a, Inf b => Bool.eqb a b
  | _, _ => false
  end.

(** The candidates with [k] significant digits for the double [x]:
    [s * 10^(n-k)] rounds to [x], with [s] the lower or the upper
    [k]-digit neighbour, the closer one first. *)
Definition shortestAt (x n0 k : Z) : option (Z * Z) :=
  let p := 10 ^ (n0 - k) in
  let lo := x / p in
  let hi := lo + 1 in
  let okLo := num_eqb (toDouble (lo * p)) (Num x) in
  let okHi := num_eqb (toDouble (hi * p)) (Num x) in
  let norm s := if s =? 10 ^ k then (10 ^ (k - 1), n0 + 1) else (s, n0) in
  let loCloser := (x - lo * p <? hi * p - x)
                  || ((x - lo * p =? hi * p - x) && Z.even lo) in
  match okLo, okHi with
  | true, true => Some (norm (if loCloser then lo else hi))
  | true, false => Some (norm lo)
  | false, true => Some (norm hi)
  | false, false => None
  end.

Fixpoint shortestFrom (fuel : nat) (x n0 k : Z) : Z * Z :=
  match fuel with
  | O => (x, n0)
  | S f =>
      match shortestAt x n0 k with
      | Some sn => sn
      | None => shortestFrom f x n0 (k + 1)
      end
  end.

(** [x.toString()] for a non-negative integer-valued double.  Below
    [2^53] the shortest digits that read back as [x] are the decimal
    digits of [x]; above, they are padded with zeros up to 21 digits
    and written with an exponent beyond. *)
Definition toStringPos (x : Z) : jsstring :=
  if x <? 2 ^ 53 then decimal x
  else
    let n0 := Z.of_nat (length (decimal x)) in
    let '(s, n) := shortestFrom (Z.to_nat n0) x n0 1 in
    let ds := decimal s in
    let k := Z.of_nat (length ds) in
    if n <=? 21 then ds ++ repeat 48 (Z.to_nat (n - k))
    else
      match ds with
      | d :: rest =>
          (d :: match rest with [] => [] | _ => 46 :: rest end)
            ++ lit "e+" ++ decimal (n - 1)
      | [] => []
      end.

Definition toString (x : number) : jsstring :=
  match x with
  | NaN => lit "NaN"
  | Inf false => lit "Infinity"
  | Inf true => lit "-Infinity"
  | Num z => if z <? 0 then 45 :: toStringPos (- z) else toStringPos z
  end.

(** ** The codecs of the source *)

(** [decodeBase64]: [atob], and the empty string when it throws. *)
Definition decodeBase64 (input : jsstring) : jsstring :=
  match atob input with
  | Some r => r
  | None => []
  end.

(** [cleanHex.substr(i, 2)] for [i = 0, 2, 4, ...]. *)
Fixpoint substrPairs (s : jsstring) : list jsstring :=
  match s with
  | a :: b :: rest => [a; b] :: substrPairs rest
  | [a] => [[a]]
  | [] => []
  end.

(** [hexToAscii]: nothing in the body throws, the [catch] is dead. *)
Definition hexToAscii (hex : jsstring) : jsstring :=
  let cleanHex := filter (fun c => negb (isWhiteSpace c)) hex in
  map (fun pair => fromCharCode (parseInt pair 16)) (substrPairs cleanHex).

Definition isLetter (c : Z) : bool := in_range 97 122 c || in_range 65 90 c.

Definition rot13Char (char : Z) : Z :=
  let code := char in
  let base := if (65 <=? code) && (code <=? 90) then 65 else 97 in
  (code - base + 13) mod 26 + base.

(** [decodeROT13]: [replace] with [/[a-zA-Z]/g]. *)
Definition decodeROT13 (input : jsstring) : jsstring :=
  map (fun c => if isLetter c then rot13Char c else c) input.

(** [binaryToAscii]. *)
Definition binaryToAscii (binary : jsstring) : jsstring :=
  let bytes := split 32 binary in
  map (fun byte => fromCharCode (parseInt byte 2)) bytes.

(** [hexInput.match(/.{1,2}/g) || []]: greedy runs of one or two code
    units that are not line terminators, scanning left to right. *)
Fixpoint matchPairs (s : jsstring) : list jsstring :=
  match s with
  | [] => []
  | a :: rest =>
      if isLineTerminator a then matchPairs rest
      else match rest with
           | b :: rest' =>
               if isLineTerminator b then [a] :: matchPairs rest'
               else [a; b] :: matchPairs rest'
           | [] => [[a]]
           end
  end.

(** [keyBytes[i % keyBytes.length]]: [undefined] (here [NaN], which
    [^] reads as 0 just the same) when the key is empty. *)
Definition keyAt (keyBytes : list Z) (i : nat) : number :=
  match nth_error keyBytes (Nat.modulo i (length keyBytes)) with
  | Some k => Num k
  | None => NaN
  end.

Fixpoint xorLoop (input : list jsstring) (keyBytes : list Z) (i : nat)
  : jsstring :=
  match input with
  | [] => []
  | chunk :: rest =>
      let inputByte := parseInt chunk 16 in
      let keyByte := keyAt keyBytes i in
      fromCharCode (num_xor inputByte keyByte) :: xorLoop rest keyBytes (S i)
  end.

(** [decodeXOR]. *)
Definition decodeXOR (hexInput key : jsstring) : jsstring :=
  let input := matchPairs hexInput in
  let keyBytes := key in
  xorLoop input keyBytes 0.

(** ** Sequence solvers *)

(** [sequence.split(',').map(s => parseInt(s.trim())).filter(n => !isNaN(n))] *)
Definition parseNumbers (sequence : jsstring) : list number :=
  filter (fun n => negb (isNaN n))
         (map (fun s => parseInt (trim s) 0) (split 44 sequence)).

(** [solveFibonacci]. *)
Definition solveFibonacci (sequence : jsstring) : jsstring :=
  let numbers := parseNumbers sequence in
  if (length numbers <? 2)%nat then []
  else
    let n1 := nth (length numbers - 2) numbers NaN in
    let n2 := nth (length numbers - 1) numbers NaN in
    toString (num_add n1 n2).

(** [i <= Math.sqrt(n)] for an integer [i >= 2].  [Math.sqrt] is
    correctly rounded, so the test is [i * i <= n] except when [n] lies
    just below the square of an [i] above [2^26], where the rounded root
    can reach [i]; the one extra trial division by such an [i], larger
    than the root, never succeeds, and the model takes the exact test. *)
Definition leb_sqrt (i n : number) : bool :=
  match i, n with
  | Num a, Num z => a * a <=? z
  | Num _, Inf false => true
  | _, _ => false
  end.

(** [n % i === 0]. *)
Definition rem_is_zero (n i : number) : bool :=
  match n, i with
  | Num z, Num a => negb (a =? 0) && (Z.rem z a =? 0)
  | _, _ => false
  end.

(** The [for] loop of [isPrime]; [None] when [fuel] iterations do not
    reach a [return]. *)
Fixpoint isPrime_loop (fuel : nat) (n i : number) : option bool :=
  match fuel with
  | O => None
  | S f =>
      if leb_sqrt i n then
        if rem_is_zero n i then Some false
        else isPrime_loop f n (num_add i (Num 1))
      else Some true
  end.

Definition isPrime (fuel : nat) (n : number) : option bool :=
  if num_ltb n (Num 2) then Some false
  else isPrime_loop fuel n (Num 2).

(** The [while] loop of [getNextPrime]. *)
Fixpoint getNextPrime_loop (fuel : nat) (candidate : number) : option number :=
  match fuel with
  | O => None
  | S f =>
      match isPrime fuel candidate with
      | None => None
      | Some true => Some candidate
      | Some false => getNextPrime_loop f (num_add candidate (Num 1))
      end
  end.

Definition getNextPrime (fuel : nat) (current : number) : option number :=
  getNextPrime_loop fuel (num_add current (Num 1)).

(** [solvePrimeSequence]. *)
Definition solvePrimeSequence (fuel : nat) (sequence : jsstring)
  : option jsstring :=
  let numbers := parseNumbers sequence in
  if (length numbers =? 0)%nat then Some []
  else
    let lastPrime := nth (length numbers - 1) numbers NaN in
    match getNextPrime fuel lastPrime with
    | Some p => Some (toString p)
    | None => None
    end.

(** ** Puzzles and results *)

(** The fields of [CryptoPuzzle] the solver reads.  [type] is a plain
    string at run time; [bits] is a non-negative integer when set. *)
Module CryptoPuzzle.
Record t : Type := mk {
  type : jsstring;
  challenge : jsstring;
  solution : option jsstring;
  bits : option N
}.
End CryptoPuzzle.

(** [SolverResult]; [solution] is [None] when the field is left out or
    [undefined]. *)
Module SolverResult.
Record t : Type := mk {
  success : bool;
  solution : option jsstring;
  attempts : number;
  method : jsstring
}.
End SolverResult.

Import SolverResult.

(** ** Cipher strategy *)

Record decoder : Type := { name : jsstring; fn : unit -> jsstring }.

(** [/^[\x20-\x7E]+$/.test(s)] *)
Definition isPrintable (s : jsstring) : bool :=
  match s with
  | [] => false
  | _ => forallb (in_range 32 126) s
  end.

(** [result && result.length > 0 && /^[\x20-\x7E]+$/.test(result)] *)
Definition accepted (result : jsstring) : bool :=
  match result with [] => false | _ => true end
  && (0 <? Z.of_nat (length result)) && isPrintable result.

Record cipherState : Type := {
  cs_solution : jsstring;
  cs_method : jsstring;
  cs_attempts : Z
}.

(** The [for ... of] loop over the decoders, with its [break].  Every
    decoder catches what it may throw, so the [catch { continue }] of
    the loop body is never entered. *)
Fixpoint decodeLoop (decoders : list decoder) (st : cipherState)
  : cipherState :=
  match decoders with
  | [] => st
  | d :: rest =>
      let attempts := cs_attempts st + 1 in
      let result := fn d tt in
      if accepted result then
        {| cs_solution := result; cs_method := name d; cs_attempts := attempts |}
      else
        decodeLoop rest {| cs_solution := cs_solution st;
                           cs_method := cs_method st;
                           cs_attempts := attempts |}
  end.

Definition decoders (challenge : jsstring) : list decoder :=
  [ {| name := lit "Base64"; fn := fun _ => decodeBase64 challenge |};
    {| name := lit "Hex to ASCII"; fn := fun _ => hexToAscii challenge |};
    {| name := lit "ROT13"; fn := fun _ => decodeROT13 challenge |};
    {| name := lit "Binary to ASCII"; fn := fun _ => binaryToAscii challenge |};
    {| name := lit "XOR with KEY";
       fn := fun _ => decodeXOR challenge (lit "KEY") |} ].

(** [solveCipherPuzzle]. *)
Definition solveCipherPuzzle (puzzle : CryptoPuzzle.t) : SolverResult.t :=
  let challenge := CryptoPuzzle.challenge puzzle in
  let st := decodeLoop (decoders challenge)
              {| cs_solution := []; cs_method := []; cs_attempts := 0 |} in
  {| success := 0 <? Z.of_nat (length (cs_solution st));
     solution := Some (cs_solution st);
     attempts := Num (cs_attempts st);
     method := cs_method st |}.

(** ** Pattern strategy *)

(** [/^[01\s]+$/.test(s)] *)
Definition isBinaryText (s : jsstring) : bool :=
  match s with
  | [] => false
  | _ => forallb (fun c => (c =? 48) || (c =? 49) || isWhiteSpace c) s
  end.

(** [solvePatternPuzzle]; [None] when the prime search does not return
    within [fuel]. *)
Definition solvePatternPuzzle (fuel : nat) (puzzle : CryptoPuzzle.t)
  : option SolverResult.t :=
  let challenge := CryptoPuzzle.challenge puzzle in
  let finish (solution : jsstring) (method : jsstring) (attempts : Z) :=
    {| success := 0 <? Z.of_nat (length solution);
       solution := Some solution;
       attempts := Num attempts;
       method := method |} in
  if includes challenge (lit "1, 1, 2, 3, 5, 8") then
    Some (finish (solveFibonacci challenge)
                 (lit "Fibonacci sequence detection") 1)
  else if includes challenge (lit "2, 3, 5, 7, 11") then
    match solvePrimeSequence fuel challenge with
    | Some s => Some (finish s (lit "Prime number sequence detection") 1)
    | None => None
    end
  else if isBinaryText challenge then
    Some (finish (binaryToAscii challenge)
                 (lit "Binary to ASCII conversion") 1)
  else Some (finish [] [] 0).

(** ** Dictionary strategy *)

Definition commonInputs : list jsstring :=
  map lit [ ""; "foo"; "bar"; "test"; "password"; "1"; "2"; "3";
            "bitcoin"; "satoshi"; "hello"; "world" ]%string.

(** The loop of [solveHashPuzzle]: [Some] is the early [return]. *)
Fixpoint hashLoop (inputs : list jsstring) (target : option jsstring)
  (attempts : Z) : SolverResult.t :=
  match inputs with
  | [] =>
      {| success := false; solution := None; attempts := Num attempts;
         method := lit "Dictionary attack attempted" |}
  | input :: rest =>
      let attempts := attempts + 1 in
      if match target with
         | Some sol => str_eqb input sol
         | None => false
         end
      then {| success := true; solution := Some input;
              attempts := Num attempts;
              method := lit "Dictionary attack with common inputs" |}
      else hashLoop rest target attempts
  end.

(** [solveHashPuzzle]. *)
Definition solveHashPuzzle (puzzle : CryptoPuzzle.t) : SolverResult.t :=
  hashLoop commonInputs (CryptoPuzzle.solution puzzle) 0.

(** ** Keyspace strategy *)

(** Binary64 multiplication, bit for bit. *)
Definition b64_mul : spec_float -> spec_float -> spec_float := SFmul 53 1024.

(** An integer-valued [number] as a binary64. *)
Definition toFloat (n : number) : spec_float :=
  match n with
  | NaN => S754_nan
  | Inf s => S754_infinity s
  | Num z => binary_normalize 53 1024 z 0 false
  end.

(** The literal [0.7]: the double [0x3FE6666666666666]. *)
Definition point7 : spec_float := S754_finite false 6305039478318694 (-53).

Definition float_one : spec_float := S754_finite false 4503599627370496 (-52).

(** [Math.floor]: the floor of a binary64 is again a binary64. *)
Definition Math_floor (x : spec_float) : number :=
  match x with
  | S754_nan => NaN
  | S754_infinity s => Inf s
  | S754_zero _ => Num 0
  | S754_finite s m e =>
      let z := cond_Zopp s (Zpos m) in
      Num (if 0 <=? e then z * 2 ^ e else z / 2 ^ (- e))
  end.

(** [Math.pow(2, bits)] for a non-negative integer [bits]. *)
Definition Math_pow2 (bits : N) : number :=
  if (bits <=? 1023)%N then Num (2 ^ Z.of_N bits) else Inf false.

(** What [Math.random()] may return: a binary64 in [[0, 1)]. *)
Definition isRandom (r : spec_float) : bool :=
  valid_binary 53 1024 r
  && SFleb (S754_zero false) r && SFltb r float_one.

(** [solveBitcoinPuzzle]; [rnd] is the value of the first
    [Math.random()] (the second one only feeds [timeMs]). *)
Definition solveBitcoinPuzzle (rnd : spec_float) (puzzle : CryptoPuzzle.t)
  : SolverResult.t :=
  let bits := match CryptoPuzzle.bits puzzle with
              | Some b => b
              | None => 0%N
              end in
  let maxAttempts := Math_pow2 bits in
  if (20 <? bits)%N then
    {| success := false;
       solution := None;
       attempts := maxAttempts;
       method := lit "Brute force (2^" ++ toString (Num (Z.of_N bits))
                 ++ lit " keys) - computationally infeasible" |}
  else
    let attempts :=
      num_add
        (Math_floor (b64_mul (b64_mul rnd (toFloat maxAttempts)) point7))
        (Num 1) in
    {| success := (bits <=? 15)%N;
       solution := CryptoPuzzle.solution puzzle;
       attempts := attempts;
       method := lit "Brute force key search (2^"
                 ++ toString (Num (Z.of_N bits)) ++ lit " = "
                 ++ toString maxAttempts ++ lit " possible keys)" |}.

(** ** Dispatcher *)

(** [solvePuzzleWithAI], without its initial delay: the [switch] on
    [puzzle.type].  [fuel] bounds the prime search of the pattern
    strategy and [rnd] is what [Math.random()] returns to the keyspace
    strategy. *)
Definition solvePuzzleWithAI (fuel : nat) (rnd : spec_float)
  (puzzle : CryptoPuzzle.t) : option SolverResult.t :=
  let type := CryptoPuzzle.type puzzle in
  if str_eqb type (lit "cipher-decode") then Some (solveCipherPuzzle puzzle)
  else if str_eqb type (lit "pattern-analysis") then
    solvePatternPuzzle fuel puzzle
  else if str_eqb type (lit "hash-preimage") then Some (solveHashPuzzle puzzle)
  else if str_eqb type (lit "bitcoin-address") then
    Some (solveBitcoinPuzzle rnd puzzle)
  else if str_eqb type (lit "private-key-recovery") then
    Some (solveBitcoinPuzzle rnd puzzle)
  else
    Some {| success := false;
            solution := None;
            attempts := Num 0;
            method := lit "Unknown puzzle type" |}.

(** ** Vocabulary of the properties *)

(** The five recognised puzzle types. *)
Definition knownTypes : list jsstring :=
  map lit [ "cipher-decode"; "pattern-analysis"; "hash-preimage";
            "bitcoin-address"; "private-key-recovery" ]%string.

Definition isHexDigit (c : Z) : bool :=
  in_range 48 57 c || in_range 97 102 c || in_range 65 70 c.

Definition hexValue (c : Z) : Z :=
  if in_range 48 57 c then c - 48
  else if in_range 97 102 c then c - 87
  else c - 55.

(** The byte string that a text of hex digit pairs denotes. *)
Fixpoint pairBytes (s : jsstring) : jsstring :=
  match s with
  | hi :: lo :: rest => (16 * hexValue hi + hexValue lo) :: pairBytes rest
  | _ => []
  end.

(** Primality, as in arithmetic. *)
Definition is_prime (p : Z) : Prop :=
  1 < p /\ forall d, 1 < d < p -> ~ (d | p).

(** [p] is the smallest prime strictly greater than [n]. *)
Definition next_prime_after (n p : Z) : Prop :=
  n < p /\ is_prime p /\ forall q, n < q < p -> ~ is_prime q.

(** The outcome of the [default] branch of the dispatcher. *)
Definition unknownOutcome : SolverResult.t :=
  {| success := false; solution := None; attempts := Num 0;
     method := lit "Unknown puzzle type" |}.

(** The 22 code units that are hex digits. *)
Definition hexDigits : list Z :=
  [48; 49; 50; 51; 52; 53; 54; 55; 56; 57;
   65; 66; 67; 68; 69; 70; 97; 98; 99; 100; 101; 102].

(** The round or the sticky bit of a shifted mantissa is set. *)
Definition inexact (mrs : shr_record) : bool := shr_r mrs || shr_s mrs.

(** [y] is [x] shifted right by [n] bits: the mantissa is the quotient,
    and the round and sticky bits are only set when something is lost. *)
Definition shifted (n : Z) (x y : shr_record) : Prop :=
  0 <= shr_m x ->
  0 <= shr_m y
  /\ shr_m y = shr_m x / 2 ^ n
  /\ (inexact y = true -> inexact x = true \/ shr_m x mod 2 ^ n <> 0).

(** [below k x]: [x] is a non-negative binary64 strictly below [2^k],
    that is, at most [(2^53 - 1) * 2^(k - 53)]. *)
Definition below (k : Z) (x : spec_float) : Prop :=
  match x with
  | S754_zero _ => True
  | S754_finite false m e =>
      e <= k - 53 /\ Z.pos m <= (2 ^ 53 - 1) * 2 ^ (k - 53 - e)
  | _ => False
  end.

(** ** Encodings the codecs are read against *)

Definition isByte (b : Z) : bool := in_range 0 255 b.

(** The lower-case hex digit of a value below 16. *)
Definition hexDigitOf (v : Z) : Z := if v <? 10 then 48 + v else 87 + v.

(** Bytes written as pairs of hex digits. *)
Definition hexOfBytes (bs : list Z) : jsstring :=
  flat_map (fun b => [hexDigitOf (b / 16); hexDigitOf (b mod 16)]) bs.

(** A byte written as eight binary digits, most significant first. *)
Definition octet (b : Z) : jsstring :=
  map (fun k => 48 + (b / 2 ^ k) mod 2) [7; 6; 5; 4; 3; 2; 1; 0].

(** [tokens.join(' ')] *)
Fixpoint joinSpace (tokens : list jsstring) : jsstring :=
  match tokens with
  | [] => []
  | [t] => t
  | t :: rest => t ++ 32 :: joinSpace rest
  end.

(** Each byte combined with the key byte of its position, the key
    repeating. *)
Fixpoint xorWithKey (bs key : list Z) (i : nat) : list Z :=
  match bs with
  | [] => []
  | b :: rest =>
      Z.lxor b (nth (Nat.modulo i (length key)) key 0)
        :: xorWithKey rest key (S i)
  end.

(** The character of a Base64 sextet. *)
Definition base64Char (v : Z) : Z :=
  if v <? 26 then 65 + v
  else if v <? 52 then 71 + v
  else if v <? 62 then v - 4
  else if v =? 62 then 43
  else 47.

Definition isSextet (v : Z) : bool := in_range 0 63 v.

(** The sextets of a byte string, three bytes to four sextets, the last
    group cut short. *)
Fixpoint sextets (bs : list Z) : list Z :=
  match bs with
  | a :: b :: c :: rest =>
      (a / 4) :: (a mod 4 * 16 + b / 16) :: (b mod 16 * 4 + c / 64)
        :: (c mod 64) :: sextets rest
  | [a; b] => [a / 4; a mod 4 * 16 + b / 16; b mod 16 * 4]
  | [a] => [a / 4; a mod 4 * 16]
  | [] => []
  end.

(** Standard Base64 with padding (RFC 4648), what [btoa] produces. *)
Definition base64Encode (bs : list Z) : jsstring :=
  map base64Char (sextets bs)
  ++ match Nat.modulo (length bs) 3 with
     | 1%nat => [61; 61]
     | 2%nat => [61]
     | _ => []
     end.

(** The number of units of [s] equal to [c]. *)
Definition countUnit (c : Z) (s : jsstring) : nat :=
  length (filter (fun x => x =? c) s).

(** ** The catalogue and its helpers ([cryptoPuzzles.ts], [puzzleUtils.ts])

    The module constant [cryptoPuzzles] that the helpers of the source
    read is passed to their models as the argument [puzzles]; the
    constant itself is [cryptoPuzzles] below. *)

Inductive Difficulty : Type := easy | medium | hard | impossible.

Definition difficulty_eqb (a b : Difficulty) : bool :=
  match a, b with
  | easy, easy | medium, medium | hard, hard | impossible, impossible => true
  | _, _ => false
  end.

(** A catalogue entry: [id] and [difficulty] next to the fields of
    [CryptoPuzzle] that the solver reads.  The display fields ([name],
    [description], [hint], [solutionMethod], [reward], [address],
    [balance]) are read by none of the functions modelled here. *)
Module Entry.
Record t : Type := mk {
  id : Z;
  difficulty : Difficulty;
  puzzle : CryptoPuzzle.t
}.
End Entry.

Definition catalogueEntry (id : Z) (type : string) (d : Difficulty)
  (challenge : string) (solution : option string) (bits : option N)
  : Entry.t :=
  Entry.mk id d
    (CryptoPuzzle.mk (lit type) (lit challenge) (option_map lit solution) bits).

(** The 22 puzzles of [cryptoPuzzles.ts]. *)
Definition cryptoPuzzles : list Entry.t :=
  [ catalogueEntry 1 "bitcoin-address" easy
      "1BgGZ9tcN4rm9KBzDn7KprQz87SZ26SAMH" (Some "1") (Some 1);
    catalogueEntry 2 "bitcoin-address" easy
      "1CUNEBjYrCn2y1SdiUMohaKUi4wpP326Lb" (Some "3") (Some 2);
    catalogueEntry 3 "bitcoin-address" easy
      "19ZewH8Kk1PDbSNdJ97FP4EiCjTRaZMZQA" (Some "7") (Some 3);
    catalogueEntry 4 "bitcoin-address" easy
      "1EhqbyUMvvs7BfL8goY6qcPbD6YKfPqb7e" (Some "8") (Some 4);
    catalogueEntry 5 "bitcoin-address" easy
      "1E6NuFjCi27W5zoXg8TRdcSRq84zJeBW3k" (Some "21") (Some 5);
    catalogueEntry 6 "hash-preimage" easy
      "e3b0c44298fc1c149afbf4c8996fb92427ae41e4649b934ca495991b7852b855"
      (Some "") None;
    catalogueEntry 7 "hash-preimage" easy
      "2c26b46b68ffc68ff99b453c1d30413413422d706483bfa0f98a5e886266e7ae"
      (Some "foo") None;
    catalogueEntry 8 "hash-preimage" medium
      "6b86b273ff34fce19d6b804eff5a3f5747ada4eaa22f1d49c01e52ddb7875b4b"
      (Some "1") None;
    catalogueEntry 9 "cipher-decode" easy
      "GUVF VF N FRPERG ZRFFNTR" (Some "THIS IS A SECRET MESSAGE") None;
    catalogueEntry 10 "cipher-decode" easy
      "UHJpdmF0ZUtleUZyYWdtZW50" (Some "PrivateKeyFragment") None;
    catalogueEntry 11 "cipher-decode" easy
      "48656c6c6f20426974636f696e" (Some "Hello Bitcoin") None;
    catalogueEntry 12 "cipher-decode" medium
      "0a1e1b1f4b0a1e1b1f" (Some "BITCOIN") None;
    catalogueEntry 13 "pattern-analysis" medium
      "1, 1, 2, 3, 5, 8, 13, 21, ?" (Some "34") None;
    catalogueEntry 14 "pattern-analysis" medium
      "2, 3, 5, 7, 11, 13, 17, 19, ?" (Some "23") None;
    catalogueEntry 15 "pattern-analysis" medium
      "01000010 01010100 01000011" (Some "BTC") None;
    catalogueEntry 16 "bitcoin-address" medium
      "16JrGhLx5bcBSA34kew9V6Mufa4aXhFe9X" None (Some 10);
    catalogueEntry 17 "bitcoin-address" medium
      "13zb1hQbWVsc2S7ZTZnP2G4undNNpdh5so" None (Some 15);
    catalogueEntry 18 "bitcoin-address" hard
      "1BY8GQbnueYofwSuFAT3USAhGjPrkxDdW9" None (Some 20);
    catalogueEntry 19 "hash-preimage" hard
      "4f8b42c22dd3729b519ba6f68d2da7cc5b2d606d05daed5ad5128cc03e6c6358"
      None None;
    catalogueEntry 20 "private-key-recovery" hard
      "First 64 bits known: 0x0000000000000000..." None None;
    catalogueEntry 21 "bitcoin-address" impossible
      "14oFNXucftsHiUMY8uctg6N487riuyXs4h" None (Some 50);
    catalogueEntry 22 "bitcoin-address" impossible
      "1BY8GQbnueYofwSuFAT3USAhGjPrkxDdW9" None (Some 66) ]%string%N.

Definition typeOf (p : Entry.t) : jsstring :=
  CryptoPuzzle.type (Entry.puzzle p).

(** [getPuzzlesByType], [getPuzzlesByDifficulty], [getPuzzleById]. *)
Definition getPuzzlesByType (puzzles : list Entry.t) (type : jsstring)
  : list Entry.t :=
  filter (fun p => str_eqb (typeOf p) type) puzzles.

Definition getPuzzlesByDifficulty (puzzles : list Entry.t) (d : Difficulty)
  : list Entry.t :=
  filter (fun p => difficulty_eqb (Entry.difficulty p) d) puzzles.

Definition getPuzzleById (puzzles : list Entry.t) (id : Z) : option Entry.t :=
  find (fun p => Entry.id p =? id) puzzles.

(** *** getPuzzleStatistics *)

(** A JS object used as a table of counters: its own properties in
    insertion order. *)
Definition counters (K : Type) : Type := list (K * number).

Fixpoint getKey {K : Type} (eqb : K -> K -> bool) (k : K) (obj : counters K)
  : option number :=
  match obj with
  | [] => None
  | (k', v) :: rest => if eqb k' k then Some v else getKey eqb k rest
  end.

(** [obj[k]++]: a property that is not there reads as [undefined] and
    is stored as NaN. *)
Fixpoint incrKey {K : Type} (eqb : K -> K -> bool) (k : K) (obj : counters K)
  : counters K :=
  match obj with
  | [] => [(k, NaN)]
  | (k', v) :: rest =>
      if eqb k' k then (k', num_add v (Num 1)) :: rest
      else (k', v) :: incrKey eqb k rest
  end.

Module PuzzleStatistics.
Record t : Type := mk {
  total : number;
  byType : counters jsstring;
  byDifficulty : counters Difficulty;
  solved : number;
  unsolved : number
}.
End PuzzleStatistics.

(** [x - y] on numbers that are integers. *)
Definition num_sub (x y : number) : number :=
  match x, y with
  | Num a, Num b => toDouble (a - b)
  | NaN, _ | _, NaN => NaN
  | Inf a, Inf b => if Bool.eqb a b then NaN else Inf a
  | Inf a, _ => Inf a
  | _, Inf b => Inf (negb b)
  end.

Definition arrayLength {A : Type} (l : list A) : number :=
  Num (Z.of_nat (length l)).

(** The [forEach] of [getPuzzleStatistics]. *)
Fixpoint countPuzzles (puzzles : list Entry.t)
  (byType : counters jsstring) (byDifficulty : counters Difficulty)
  : counters jsstring * counters Difficulty :=
  match puzzles with
  | [] => (byType, byDifficulty)
  | p :: rest =>
      countPuzzles rest
        (incrKey str_eqb (typeOf p) byType)
        (incrKey difficulty_eqb (Entry.difficulty p) byDifficulty)
  end.

Definition getPuzzleStatistics (puzzles : list Entry.t) (solvedIds : list Z)
  : PuzzleStatistics.t :=
  let '(byType, byDifficulty) :=
    countPuzzles puzzles
      (map (fun k => (lit k, Num 0))
           [ "bitcoin-address"; "hash-preimage"; "cipher-decode";
             "pattern-analysis"; "private-key-recovery" ]%string)
      [ (easy, Num 0); (medium, Num 0); (hard, Num 0); (impossible, Num 0) ] in
  {| PuzzleStatistics.total := arrayLength puzzles;
     PuzzleStatistics.byType := byType;
     PuzzleStatistics.byDifficulty := byDifficulty;
     PuzzleStatistics.solved := arrayLength solvedIds;
     PuzzleStatistics.unsolved :=
       num_sub (arrayLength puzzles) (arrayLength solvedIds) |}.

(** *** getRecommendedPuzzle *)

(** [difficultyOrder]. *)
Definition difficultyOrder (d : Difficulty) : Z :=
  match d with easy => 1 | medium => 2 | hard => 3 | impossible => 4 end.

(** The comparison function handed to [sort]. *)
Definition compareEntries (a b : Entry.t) : Z :=
  let diffA := difficultyOrder (Entry.difficulty a) in
  let diffB := difficultyOrder (Entry.difficulty b) in
  if negb (diffA =? diffB) then diffA - diffB
  else Entry.id a - Entry.id b.

(** [Array.prototype.sort] with a consistent comparison function: the
    stable sort, here by insertion from the right. *)
Fixpoint sortInsert {A : Type} (cmp : A -> A -> Z) (x : A) (l : list A)
  : list A :=
  match l with
  | [] => [x]
  | y :: rest =>
      if cmp x y <=? 0 then x :: l else y :: sortInsert cmp x rest
  end.

Fixpoint sort {A : Type} (cmp : A -> A -> Z) (l : list A) : list A :=
  match l with
  | [] => []
  | x :: rest => sortInsert cmp x (sort cmp rest)
  end.

(** [solvedIds.includes(id)] *)
Definition includesId (solvedIds : list Z) (id : Z) : bool :=
  existsb (fun x => x =? id) solvedIds.

Definition isAvailable (solvedIds : list Z) (p : Entry.t) : bool :=
  negb (includesId solvedIds (Entry.id p))
  && negb (difficulty_eqb (Entry.difficulty p) impossible).

Definition getRecommendedPuzzle (puzzles : list Entry.t) (solvedIds : list Z)
  : option Entry.t :=
  let availablePuzzles := filter (isAvailable solvedIds) puzzles in
  if (length availablePuzzles =? 0)%nat then None
  else
    match sort compareEntries availablePuzzles with
    | first :: _ => Some first
    | [] => None
    end.

(** *** validateSolution and isSolvableWithCurrentTech *)

(** [validateSolution].  [String.prototype.toLowerCase] is an argument:
    the Unicode case tables are no part of this development. *)
Definition validateSolution (toLowerCase : jsstring -> jsstring)
  (puzzle : CryptoPuzzle.t) (proposedSolution : jsstring) : bool :=
  match CryptoPuzzle.solution puzzle with
  | None | Some [] => false
  | Some solution =>
      let normalized := toLowerCase (trim proposedSolution) in
      let expected := toLowerCase (trim solution) in
      str_eqb normalized expected
  end.

(** [isSolvableWithCurrentTech]. *)
Definition isSolvableWithCurrentTech (p : Entry.t) : bool :=
  if difficulty_eqb (Entry.difficulty p) impossible then false
  else
    match CryptoPuzzle.bits (Entry.puzzle p) with
    | Some b =>
        if str_eqb (typeOf p) (lit "bitcoin-address") && negb (b =? 0)%N
        then (b <=? 30)%N
        else true
    | None => true
    end.

(** ** The page ([pages/Index.tsx], with the solver) *)

Inductive Status : Type := solved | unsolved | solving.

Module PuzzleState.
Record t : Type := mk {
  entry : Entry.t;
  status : Status;
  foundSolution : option jsstring
}.
End PuzzleState.

Definition INITIALLY_SOLVED_PUZZLE_COUNT : Z := 3.

(** The initial value of the [puzzles] state. *)
Definition initialPuzzles (puzzles : list Entry.t) : list PuzzleState.t :=
  map (fun p =>
         PuzzleState.mk p
           (if Entry.id p <=? INITIALLY_SOLVED_PUZZLE_COUNT
            then solved else unsolved)
           (if Entry.id p <=? INITIALLY_SOLVED_PUZZLE_COUNT
            then CryptoPuzzle.solution (Entry.puzzle p) else None))
      puzzles.

Definition stateId (p : PuzzleState.t) : Z := Entry.id (PuzzleState.entry p).

(** The first [setPuzzles] of [handleSolvePuzzle]. *)
Definition markSolving (puzzleId : Z) (prev : list PuzzleState.t)
  : list PuzzleState.t :=
  map (fun p =>
         if stateId p =? puzzleId
         then PuzzleState.mk (PuzzleState.entry p) solving
                             (PuzzleState.foundSolution p)
         else p)
      prev.

(** [result.success && result.solution] *)
Definition solvedBy (result : SolverResult.t) : bool :=
  success result
  && match solution result with
     | Some (_ :: _) => true
     | _ => false
     end.

(** The [setPuzzles] after the solver has returned, in its two forms. *)
Definition markResult (puzzleId : Z) (result : SolverResult.t)
  (prev : list PuzzleState.t) : list PuzzleState.t :=
  if solvedBy result then
    map (fun p =>
           if stateId p =? puzzleId
           then PuzzleState.mk (PuzzleState.entry p) solved (solution result)
           else p)
        prev
  else
    map (fun p =>
           if stateId p =? puzzleId
           then PuzzleState.mk (PuzzleState.entry p) unsolved
                               (PuzzleState.foundSolution p)
           else p)
        prev.

(** [handleSolvePuzzle], as the [puzzles] state it leaves when no other
    event comes between its two updates; [None] when the solver does
    not return.  The solver never rejects, so the [catch] is left out. *)
Definition handleSolvePuzzle (fuel : nat) (rnd : spec_float)
  (puzzles : list PuzzleState.t) (puzzleId : Z)
  : option (list PuzzleState.t) :=
  match find (fun p => stateId p =? puzzleId) puzzles with
  | None => Some puzzles
  | Some puzzle =>
      if difficulty_eqb (Entry.difficulty (PuzzleState.entry puzzle)) impossible
      then Some puzzles
      else
        match solvePuzzleWithAI fuel rnd
                (Entry.puzzle (PuzzleState.entry puzzle)) with
        | Some result =>
            Some (markResult puzzleId result (markSolving puzzleId puzzles))
        | None => None
        end
  end.

(** Every puzzle shown as solved carries a non-empty found solution. *)
Definition solvedHaveSolution (puzzles : list PuzzleState.t) : Prop :=
  forall p, In p puzzles -> PuzzleState.status p = solved ->
            exists s, PuzzleState.foundSolution p = Some s /\ s <> [].


Definition status_eqb (a b : Status) : bool :=
  match a, b with
  | solved, solved | unsolved, unsolved | solving, solving => true
  | _, _ => false
  end.

(** The [setPuzzles] of [handleToggleSolver] when the solver runs. *)
Definition stopSolving (prev : list PuzzleState.t) : list PuzzleState.t :=
  map (fun p =>
         if status_eqb (PuzzleState.status p) solving
         then PuzzleState.mk (PuzzleState.entry p) unsolved
                             (PuzzleState.foundSolution p)
         else p)
      prev.

(** [handleToggleSolver], as the [puzzles] state it leaves;
    [solverRunning] is the flag of the page. *)
Definition handleToggleSolver (fuel : nat) (rnd : spec_float)
  (solverRunning : bool) (puzzles : list PuzzleState.t)
  : option (list PuzzleState.t) :=
  if solverRunning then Some (stopSolving puzzles)
  else
    match find (fun p =>
                  status_eqb (PuzzleState.status p) unsolved
                  && negb (difficulty_eqb
                             (Entry.difficulty (PuzzleState.entry p))
                             impossible))
               puzzles with
    | Some firstUnsolved =>
        handleSolvePuzzle fuel rnd puzzles (stateId firstUnsolved)
    | None => Some puzzles
    end.

(** The state a solve request leaves at the puzzle it was for. *)
Definition settled (result : SolverResult.t) (p : PuzzleState.t)
  : PuzzleState.t :=
  if solvedBy result
  then PuzzleState.mk (PuzzleState.entry p) solved (solution result)
  else PuzzleState.mk (PuzzleState.entry p) unsolved
                      (PuzzleState.foundSolution p).

(** The width the keyspace strategy works with: [puzzle.bits || 0]. *)
Definition widthOf (puzzle : CryptoPuzzle.t) : N :=
  match CryptoPuzzle.bits puzzle with
  | Some b => b
  | None => 0%N
  end.
(** * Properties *)

Lemma str_eqb_eq (a b : jsstring) : str_eqb a b = true <-> a = b.
Proof.
  unfold str_eqb. destruct (list_eq_dec Z.eq_dec a b); split; congruence.
Qed.

(** ** The platform model on known values *)

Example atob_catalogue :
  atob (lit "UHJpdmF0ZUtleUZyYWdtZW50") = Some (lit "PrivateKeyFragment").
Proof. reflexivity. Qed.

Example atob_padding :
  atob (lit "YQ==") = Some (lit "a") /\ atob (lit "YWI") = Some (lit "ab")
  /\ atob (lit " Y W I = ") = Some (lit "ab").
Proof. repeat split. Qed.

Example atob_throws :
  atob (lit "Y") = None /\ atob (lit "a=b") = None /\ atob (lit "a-b_") = None.
Proof. repeat split. Qed.

Example parseInt_prefixes :
  parseInt (lit "  -0x1F") 0 = Num (-31)
  /\ parseInt (lit "0x") 16 = NaN
  /\ parseInt (lit "4z") 16 = Num 4
  /\ parseInt (lit " 21") 0 = Num 21
  /\ parseInt (lit "?") 0 = NaN
  /\ parseInt (lit "102") 2 = Num 2.
Proof. repeat split. Qed.

Example parseInt_rounds :
  parseInt (lit "9007199254740993") 0 = Num 9007199254740992
  /\ parseInt (lit "9007199254740995") 0 = Num 9007199254740996.
Proof. repeat split. Qed.

Example toString_samples :
  toString (Num (-34)) = lit "-34"
  /\ toString (Num (2 ^ 53)) = lit "9007199254740992"
  /\ toString (Num (2 ^ 66)) = lit "73786976294838210000"
  /\ toString (Num (2 ^ 70)) = lit "1.1805916207174113e+21"
  /\ toString (toDouble (10 ^ 23)) = lit "1e+23".
Proof. repeat split. Qed.

(** [point7] is the binary64 nearest to 7/10. *)
Example point7_nearest :
  10 * 6305039478318694 < 7 * 2 ^ 53 < 10 * 6305039478318695
  /\ 7 * 2 ^ 53 - 10 * 6305039478318694 < 10 * 6305039478318695 - 7 * 2 ^ 53.
Proof. repeat split. Qed.

Example float_product_samples :
  b64_mul (toFloat (Num 10)) point7 = toFloat (Num 7)
  /\ Math_floor (b64_mul (b64_mul float_one (toFloat (Num 1048576))) point7)
     = Num 734003.
Proof. repeat split. Qed.

Example codecs_on_the_catalogue :
  hexToAscii (lit "48656c6c6f20426974636f696e") = lit "Hello Bitcoin"
  /\ decodeROT13 (lit "GUVF VF N FRPERG ZRFFNTR") = lit "THIS IS A SECRET MESSAGE"
  /\ binaryToAscii (lit "01000010 01010100 01000011") = lit "BTC"
  /\ binaryToAscii [] = [0].
Proof. repeat split. Qed.

Example cascade_base64_first :
  solveCipherPuzzle
    (CryptoPuzzle.mk (lit "cipher-decode") (lit "UHJpdmF0ZUtleUZyYWdtZW50")
                     None None)
  = {| success := true; solution := Some (lit "PrivateKeyFragment");
       attempts := Num 1; method := lit "Base64" |}.
Proof. reflexivity. Qed.

(** ** Dictionary search *)

Section HashLoop.
Variable target : jsstring.

Lemma hashLoop_hit : forall inputs a k,
  nth_error inputs k = Some target ->
  (forall j, (j < k)%nat -> nth_error inputs j <> Some target) ->
  hashLoop inputs (Some target) a =
    {| success := true; solution := Some target;
       attempts := Num (a + Z.of_nat k + 1);
       method := lit "Dictionary attack with common inputs" |}.
Proof.
  induction inputs as [|input rest IH]; intros a k Hk Hfirst.
  - destruct k; discriminate.
  - destruct k as [|k]; simpl in Hk |- *.
    + injection Hk as ->.
      rewrite (proj2 (str_eqb_eq target target) eq_refl).
      do 2 f_equal. lia.
    + destruct (str_eqb input target) eqn:E.
      * apply str_eqb_eq in E. subst input.
        exfalso. apply (Hfirst 0%nat); [lia | reflexivity].
      * rewrite (IH (a + 1) k Hk).
        -- do 2 f_equal. lia.
        -- intros j Hj. apply (Hfirst (S j)). lia.
Qed.

Lemma hashLoop_miss : forall inputs a,
  ~ In target inputs ->
  hashLoop inputs (Some target) a =
    {| success := false; solution := None;
       attempts := Num (a + Z.of_nat (length inputs));
       method := lit "Dictionary attack attempted" |}.
Proof.
  induction inputs as [|input rest IH]; intros a Hnot; simpl.
  - do 2 f_equal. lia.
  - destruct (str_eqb input target) eqn:E.
    + apply str_eqb_eq in E. exfalso. apply Hnot. now left.
    + rewrite IH.
      * do 2 f_equal. lia.
      * intro Hin. apply Hnot. now right.
Qed.
End HashLoop.

(** C6.  The dictionary search walks [commonInputs] in list order: when
    the target first occurs at 0-based index [k] it stops there with
    success, the candidate as solution and [attempts = k + 1]; when the
    target is not in the list it fails with [attempts] the length of the
    list, 12.  The comparison is equality of code units. *)
Theorem C6_dictionary_search :
  forall (p : CryptoPuzzle.t) (target : jsstring),
    CryptoPuzzle.solution p = Some target ->
    (forall k,
        nth_error commonInputs k = Some target ->
        (forall j, (j < k)%nat -> nth_error commonInputs j <> Some target) ->
        solveHashPuzzle p =
          {| success := true; solution := Some target;
             attempts := Num (Z.of_nat k + 1);
             method := lit "Dictionary attack with common inputs" |})
    /\ (~ In target commonInputs ->
        solveHashPuzzle p =
          {| success := false; solution := None;
             attempts := Num (Z.of_nat (length commonInputs));
             method := lit "Dictionary attack attempted" |})
    /\ length commonInputs = 12%nat.
Proof.
  intros p target Hsol. unfold solveHashPuzzle. rewrite Hsol.
  split; [|split].
  - intros k Hk Hfirst. now rewrite (hashLoop_hit target _ 0 k Hk Hfirst).
  - intros Hnot. now rewrite (hashLoop_miss target _ 0 Hnot).
  - reflexivity.
Qed.

Lemma C6_dictionary_search_witness :
  solveHashPuzzle (CryptoPuzzle.mk (lit "hash-preimage") [] (Some (lit "foo")) None)
  = {| success := true; solution := Some (lit "foo"); attempts := Num 2;
       method := lit "Dictionary attack with common inputs" |}.
Proof.
  pose proof (C6_dictionary_search
                (CryptoPuzzle.mk (lit "hash-preimage") [] (Some (lit "foo")) None)
                (lit "foo") eq_refl) as [Hhit _].
  apply (Hhit 1%nat).
  - reflexivity.
  - intros j Hj. assert (j = 0%nat) as -> by lia. discriminate.
Defined.

(** ** Dispatcher *)

Lemma dispatch_default (fuel : nat) (rnd : spec_float) (p : CryptoPuzzle.t) :
  ~ In (CryptoPuzzle.type p) knownTypes ->
  solvePuzzleWithAI fuel rnd p = Some unknownOutcome.
Proof.
  intros Hnot. unfold solvePuzzleWithAI.
  repeat match goal with
  | |- context [str_eqb ?a ?b] =>
      destruct (str_eqb a b) eqn:?E;
      [ apply str_eqb_eq in E; exfalso; apply Hnot; rewrite E;
        unfold knownTypes; simpl; tauto | clear E ]
  end.
  reflexivity.
Qed.

(** C7 (as the code has it).  A descriptor whose type is none of the
    five recognised tags gets, whatever the fuel and the random value, a
    returned failure outcome with no solution, [attempts = 0] and the
    method text "Unknown puzzle type". *)
Theorem C7_unknown_type :
  forall (fuel : nat) (rnd : spec_float) (p : CryptoPuzzle.t),
    ~ In (CryptoPuzzle.type p) knownTypes ->
    solvePuzzleWithAI fuel rnd p =
      Some {| success := false; solution := None; attempts := Num 0;
              method := lit "Unknown puzzle type" |}.
Proof. exact dispatch_default. Qed.

Lemma C7_unknown_type_witness :
  solvePuzzleWithAI 0 (S754_zero false)
    (CryptoPuzzle.mk (lit "sudoku") [] None None)
  = Some {| success := false; solution := None; attempts := Num 0;
            method := lit "Unknown puzzle type" |}.
Proof.
  apply C7_unknown_type. simpl.
  intros [H|[H|[H|[H|[H|[]]]]]]; discriminate H.
Defined.

(** C7, the claim as written, fails: for the unrecognised type
    "sudoku" the method text is "Unknown puzzle type", which is not
    "unrecognized category". *)
Lemma C7_counterexample :
  ~ In (lit "sudoku") knownTypes
  /\ option_map method
       (solvePuzzleWithAI 0 (S754_zero false)
          (CryptoPuzzle.mk (lit "sudoku") [] None None))
     = Some (lit "Unknown puzzle type")
  /\ lit "Unknown puzzle type" <> lit "unrecognized category".
Proof.
  split; [|split].
  - simpl. intros [H|[H|[H|[H|[H|[]]]]]]; discriminate H.
  - reflexivity.
  - discriminate.
Qed.

(** ** Decode cascade *)

Lemma decodeLoop_first : forall ds st k d,
  nth_error ds k = Some d ->
  accepted (fn d tt) = true ->
  (forall j d', (j < k)%nat -> nth_error ds j = Some d' ->
                accepted (fn d' tt) = false) ->
  decodeLoop ds st =
    {| cs_solution := fn d tt; cs_method := name d;
       cs_attempts := cs_attempts st + Z.of_nat k + 1 |}.
Proof.
  induction ds as [|d0 rest IH]; intros st k d Hk Hacc Hfirst.
  - destruct k; discriminate.
  - destruct k as [|k]; simpl in Hk |- *.
    + injection Hk as ->. rewrite Hacc. f_equal. lia.
    + rewrite (Hfirst 0%nat d0) by (reflexivity || lia).
      rewrite (IH _ k d Hk Hacc).
      * simpl. f_equal. lia.
      * intros j d' Hj Hd'. apply (Hfirst (S j)); [lia | exact Hd'].
Qed.

Lemma decodeLoop_none : forall ds st,
  (forall d, In d ds -> accepted (fn d tt) = false) ->
  decodeLoop ds st =
    {| cs_solution := cs_solution st; cs_method := cs_method st;
       cs_attempts := cs_attempts st + Z.of_nat (length ds) |}.
Proof.
  induction ds as [|d0 rest IH]; intros st Hall; simpl.
  - destruct st; simpl. f_equal. lia.
  - rewrite (Hall d0) by now left.
    rewrite IH by (intros d Hd; apply Hall; now right).
    simpl. f_equal. lia.
Qed.

Lemma accepted_nonempty (s : jsstring) :
  accepted s = true -> (0 <? Z.of_nat (length s)) = true.
Proof.
  unfold accepted. intros H.
  apply andb_true_iff in H as [H _]. apply andb_true_iff in H as [_ H].
  exact H.
Qed.

(** C2 (as the code has it).  The decoders are tried in the order
    Base64, Hex to ASCII, ROT13, Binary to ASCII, XOR with KEY; the
    first one, at 0-based position [k], whose output is non-empty
    printable ASCII wins: success, that output as solution, that
    decoder's name as method and [attempts = k + 1].  When no output is
    accepted the outcome is a failure with [attempts = 5], the empty
    string as solution and the empty string as method. *)
Theorem C2_decode_cascade :
  forall (p : CryptoPuzzle.t),
    let c := CryptoPuzzle.challenge p in
    map (fun d => (name d, fn d tt)) (decoders c) =
      [ (lit "Base64", decodeBase64 c);
        (lit "Hex to ASCII", hexToAscii c);
        (lit "ROT13", decodeROT13 c);
        (lit "Binary to ASCII", binaryToAscii c);
        (lit "XOR with KEY", decodeXOR c (lit "KEY")) ]
    /\ (forall k d,
          nth_error (decoders c) k = Some d ->
          accepted (fn d tt) = true ->
          (forall j d', (j < k)%nat -> nth_error (decoders c) j = Some d' ->
                        accepted (fn d' tt) = false) ->
          solveCipherPuzzle p =
            {| success := true; solution := Some (fn d tt);
               attempts := Num (Z.of_nat k + 1); method := name d |})
    /\ ((forall d, In d (decoders c) -> accepted (fn d tt) = false) ->
        solveCipherPuzzle p =
          {| success := false; solution := Some [];
             attempts := Num 5; method := [] |}).
Proof.
  intros p c. split; [reflexivity | split].
  - intros k d Hk Hacc Hfirst. unfold solveCipherPuzzle. fold c.
    rewrite (decodeLoop_first _ _ k d Hk Hacc Hfirst). simpl.
    now rewrite (accepted_nonempty _ Hacc).
  - intros Hall. unfold solveCipherPuzzle. fold c.
    now rewrite (decodeLoop_none _ _ Hall).
Qed.

Lemma C2_decode_cascade_witness :
  solveCipherPuzzle
    (CryptoPuzzle.mk (lit "cipher-decode") (lit "48656c6c6f20426974636f696e")
                     None None)
  = {| success := true; solution := Some (lit "Hello Bitcoin");
       attempts := Num 2; method := lit "Hex to ASCII" |}.
Proof.
  pose proof (C2_decode_cascade
    (CryptoPuzzle.mk (lit "cipher-decode") (lit "48656c6c6f20426974636f696e")
                     None None)) as [_ [Hfirst _]].
  apply (Hfirst 1%nat
           {| name := lit "Hex to ASCII";
              fn := fun _ => hexToAscii (lit "48656c6c6f20426974636f696e") |}).
  - reflexivity.
  - vm_compute. reflexivity.
  - intros j d' Hj Hd'. assert (j = 0%nat) as -> by lia.
    injection Hd' as <-. vm_compute. reflexivity.
Defined.

(** C2, the claim as written, fails on its last clause: on the empty
    challenge no decoder's output is accepted, [attempts] is 5, and the
    method text is the empty string, which describes nothing. *)
Lemma C2_counterexample :
  let p := CryptoPuzzle.mk (lit "cipher-decode") [] None None in
  (forall d, In d (decoders (CryptoPuzzle.challenge p)) ->
             accepted (fn d tt) = false)
  /\ success (solveCipherPuzzle p) = false
  /\ attempts (solveCipherPuzzle p) = Num 5
  /\ method (solveCipherPuzzle p) = [].
Proof.
  simpl. split; [|repeat split].
  intros d [H|[H|[H|[H|[H|[]]]]]]; subst d; reflexivity.
Qed.

(** *** ROT13 on printable text *)

Lemma rot13Char_printable (c : Z) :
  isLetter c = true -> in_range 32 126 (rot13Char c) = true.
Proof.
  unfold isLetter, rot13Char, in_range. intros H.
  assert (Hm := Z.mod_pos_bound).
  destruct ((65 <=? c) && (c <=? 90)) eqn:U.
  - specialize (Hm (c - 65 + 13) 26 ltac:(lia)). lia.
  - specialize (Hm (c - 97 + 13) 26 ltac:(lia)). lia.
Qed.

Lemma decodeROT13_printable (s : jsstring) :
  forallb (in_range 32 126) s = true ->
  forallb (in_range 32 126) (decodeROT13 s) = true.
Proof.
  unfold decodeROT13. induction s as [|c s IH]; simpl; intros H.
  - reflexivity.
  - apply andb_true_iff in H as [Hc Hs]. rewrite (IH Hs), andb_true_r.
    destruct (isLetter c) eqn:L; [now apply rot13Char_printable | exact Hc].
Qed.

Lemma decodeROT13_accepted (s : jsstring) :
  s <> [] -> forallb (in_range 32 126) s = true ->
  accepted (decodeROT13 s) = true.
Proof.
  intros Hne Hp. pose proof (decodeROT13_printable s Hp) as Hq.
  destruct s as [|c s]; [congruence|].
  unfold accepted, isPrintable. unfold decodeROT13 in *. simpl map in *.
  rewrite Hq. reflexivity.
Qed.

(** C10.  On a non-empty challenge made of printable ASCII only, the
    cascade succeeds with at most three attempts: Base64 or Hex to ASCII
    wins if its output is accepted, and otherwise ROT13 wins with the
    rotated text; the Binary and XOR decoders are not reached. *)
Theorem C10_printable_challenge :
  forall (p : CryptoPuzzle.t),
    let c := CryptoPuzzle.challenge p in
    let r := solveCipherPuzzle p in
    c <> [] ->
    forallb (in_range 32 126) c = true ->
    success r = true
    /\ ((attempts r = Num 1 /\ method r = lit "Base64"
         /\ solution r = Some (decodeBase64 c))
        \/ (attempts r = Num 2 /\ method r = lit "Hex to ASCII"
            /\ solution r = Some (hexToAscii c))
        \/ (attempts r = Num 3 /\ method r = lit "ROT13"
            /\ solution r = Some (decodeROT13 c))).
Proof.
  intros p c r Hne Hp. subst r. unfold solveCipherPuzzle. fold c.
  unfold decoders. cbn [decodeLoop fn name cs_attempts cs_solution cs_method].
  destruct (accepted (decodeBase64 c)) eqn:A1.
  { cbn. rewrite (accepted_nonempty _ A1). auto. }
  destruct (accepted (hexToAscii c)) eqn:A2.
  { cbn. rewrite (accepted_nonempty _ A2). auto 6. }
  rewrite (decodeROT13_accepted c Hne Hp).
  cbn. rewrite (accepted_nonempty _ (decodeROT13_accepted c Hne Hp)). auto 8.
Qed.

Lemma C10_printable_challenge_witness :
  let p := CryptoPuzzle.mk (lit "cipher-decode")
                           (lit "GUVF VF N FRPERG ZRFFNTR") None None in
  success (solveCipherPuzzle p) = true.
Proof.
  intro p.
  refine (proj1 (C10_printable_challenge p _ _)).
  - discriminate.
  - vm_compute. reflexivity.
Defined.

(** ** Hex codec *)

Lemma isHexDigit_cases (c : Z) : isHexDigit c = true -> In c hexDigits.
Proof.
  unfold isHexDigit, in_range, hexDigits. intros H. simpl.
  assert (48 <= c <= 57 \/ 65 <= c <= 70 \/ 97 <= c <= 102) as Hc by lia.
  lia.
Qed.

Lemma parseInt_hex_pair (a b : Z) :
  isHexDigit a = true -> isHexDigit b = true ->
  parseInt [a; b] 16 = Num (16 * hexValue a + hexValue b).
Proof.
  intros Ha Hb.
  apply isHexDigit_cases in Ha. apply isHexDigit_cases in Hb.
  unfold hexDigits in Ha, Hb. simpl in Ha, Hb.
  repeat (destruct Ha as [<-|Ha]; [|]); try contradiction;
    repeat (destruct Hb as [<-|Hb]; [|]); try contradiction;
    reflexivity.
Qed.

(** Induction over a string two code units at a time. *)
Lemma pair_induction (P : jsstring -> Prop) :
  P [] -> (forall a, P [a]) ->
  (forall a b s, P s -> P (a :: b :: s)) ->
  forall s, P s.
Proof.
  intros H0 H1 H2 s.
  enough (P s /\ forall a, P (a :: s)) by tauto.
  induction s as [|c s [IHs IHc]]; split; auto.
Qed.


Lemma hexToAscii_pairs (s : jsstring) :
  Nat.even (length s) = true -> forallb isHexDigit s = true ->
  map (fun pair => fromCharCode (parseInt pair 16)) (substrPairs s)
  = pairBytes s.
Proof.
  induction s as [| a | a b s IH] using pair_induction; intros Hev Hhex.
  - reflexivity.
  - discriminate.
  - cbn [forallb] in Hhex.
    apply andb_true_iff in Hhex as [Ha Hhex].
    apply andb_true_iff in Hhex as [Hb Hhex].
    cbn [substrPairs map pairBytes].
    rewrite (IH Hev Hhex), (parseInt_hex_pair a b Ha Hb).
    f_equal. unfold fromCharCode, toUint16.
    apply isHexDigit_cases in Ha. apply isHexDigit_cases in Hb.
    unfold hexDigits in Ha, Hb. simpl in Ha, Hb.
    apply Z.mod_small. unfold hexValue, in_range.
    assert (48 <= a <= 102 /\ 48 <= b <= 102) by lia.
    repeat match goal with
    | |- context [if ?t then _ else _] => destruct t eqn:?
    end; lia.
Qed.




(** ** Keyspace strategy, above the feasibility threshold *)

(** A power of two up to [2^1023] is a binary64: rounding leaves it. *)
Lemma toDouble_pow2 (b : Z) :
  0 <= b <= 1023 -> toDouble (2 ^ b) = Num (2 ^ b).
Proof.
  intros Hb. unfold toDouble.
  assert (Hpos : 0 < 2 ^ b) by (apply Z.pow_pos_nonneg; lia).
  rewrite (Z.abs_eq (2 ^ b)) by lia.
  rewrite Z.log2_pow2 by lia.
  destruct (b + 1 - 53 <=? 0) eqn:Hs; [reflexivity|].
  apply Z.leb_gt in Hs.
  assert (Hsplit : 2 ^ b = 2 ^ 52 * 2 ^ (b + 1 - 53)).
  { rewrite <- Z.pow_add_r by lia. f_equal. lia. }
  assert (Hspos : 0 < 2 ^ (b + 1 - 53)) by (apply Z.pow_pos_nonneg; lia).
  assert (Hhalf : 0 < 2 ^ (b + 1 - 53 - 1)) by (apply Z.pow_pos_nonneg; lia).
  assert (Hq : 2 ^ b / 2 ^ (b + 1 - 53) = 2 ^ 52).
  { rewrite Hsplit at 1. apply Z.div_mul. lia. }
  assert (Hr : 2 ^ b mod 2 ^ (b + 1 - 53) = 0).
  { rewrite Hsplit at 1. apply Z.mod_mul. lia. }
  rewrite Hq, Hr.
  replace (0 <? 2 ^ (b + 1 - 53 - 1)) with true by (symmetry; lia).
  rewrite <- Hsplit.
  replace (2 ^ 1024 <=? 2 ^ b) with false.
  - f_equal. rewrite (proj2 (Z.sgn_pos_iff _) Hpos). lia.
  - symmetry. apply Z.leb_gt. apply Z.pow_lt_mono_r; lia.
Qed.

(** C4.  Above 20 bits the keyspace strategy fails at once: the outcome
    does not depend on the random source, carries no solution, reports
    [attempts = Math.pow(2, bits)], which for widths up to 1023 (so for
    66 and for 70) is the double [2^bits] with no rounding, and its
    method text names the infeasibility and the keyspace [2^bits]. *)
Theorem C4_infeasible_width :
  forall (rnd : spec_float) (p : CryptoPuzzle.t) (b : N),
    CryptoPuzzle.bits p = Some b ->
    (20 < b)%N ->
    let r := solveBitcoinPuzzle rnd p in
    success r = false
    /\ solution r = None
    /\ method r = lit "Brute force (2^" ++ toString (Num (Z.of_N b))
                  ++ lit " keys) - computationally infeasible"
    /\ (forall rnd', solveBitcoinPuzzle rnd' p = r)
    /\ ((b <= 1023)%N ->
        attempts r = Num (2 ^ Z.of_N b)
        /\ toDouble (2 ^ Z.of_N b) = Num (2 ^ Z.of_N b)).
Proof.
  intros rnd p b Hb Hgt r. subst r. unfold solveBitcoinPuzzle. rewrite Hb.
  replace (20 <? b)%N with true by (symmetry; now apply N.ltb_lt).
  cbn [success solution method attempts].
  split; [reflexivity | split; [reflexivity | split; [reflexivity | split]]].
  - reflexivity.
  - intros Hle. split.
    + unfold Math_pow2.
      now replace (b <=? 1023)%N with true by (symmetry; now apply N.leb_le).
    + apply toDouble_pow2. lia.
Qed.

Lemma C4_infeasible_width_witness :
  solveBitcoinPuzzle (S754_zero false)
    (CryptoPuzzle.mk (lit "bitcoin-address")
                     (lit "1BY8GQbnueYofwSuFAT3USAhGjPrkxDdW9") None (Some 66%N))
  = {| success := false; solution := None;
       attempts := Num 73786976294838206464;
       method := lit "Brute force (2^66 keys) - computationally infeasible" |}.
Proof.
  pose proof (C4_infeasible_width (S754_zero false)
    (CryptoPuzzle.mk (lit "bitcoin-address")
                     (lit "1BY8GQbnueYofwSuFAT3USAhGjPrkxDdW9") None (Some 66%N))
    66%N eq_refl eq_refl) as [H1 [H2 [H3 [_ H5]]]].
  destruct (H5 ltac:(discriminate)) as [H6 _].
  destruct (solveBitcoinPuzzle _ _) as [s sol a m].
  cbn in H1, H2, H3, H6. subst. reflexivity.
Defined.

(** ** The solution field *)

Lemma length_pos_iff (s : jsstring) :
  (0 <? Z.of_nat (length s)) = true <-> s <> [].
Proof.
  destruct s; simpl; split; intros H; try congruence; easy.
Qed.

Lemma hashLoop_solution : forall inputs target a,
  let r := hashLoop inputs target a in
  success r = true <-> solution r <> None.
Proof.
  induction inputs as [|input rest IH]; intros target a; simpl.
  - split; [discriminate | congruence].
  - destruct (match target with Some sol => str_eqb input sol | None => false end).
    + simpl. split; [discriminate | reflexivity].
    + apply IH.
Qed.

(** C1 (as the code has it).  What the [solution] field of a returned
    outcome holds depends on the strategy.  Cipher and pattern outcomes
    always carry a text, which is non-empty exactly when [success] is
    true.  Dictionary outcomes carry a solution exactly when [success]
    is true.  Keyspace outcomes above 20 bits and outcomes for an
    unrecognised type are failures without a solution. *)
Theorem C1_solution_field :
  forall (fuel : nat) (rnd : spec_float) (p : CryptoPuzzle.t)
         (r : SolverResult.t),
    solvePuzzleWithAI fuel rnd p = Some r ->
    let ty := CryptoPuzzle.type p in
    let b := match CryptoPuzzle.bits p with Some b => b | None => 0%N end in
    (ty = lit "cipher-decode" \/ ty = lit "pattern-analysis" ->
       exists s, solution r = Some s /\ (success r = true <-> s <> []))
    /\ (ty = lit "hash-preimage" ->
          (success r = true <-> solution r <> None))
    /\ (ty = lit "bitcoin-address" \/ ty = lit "private-key-recovery" ->
          (20 < b)%N -> success r = false /\ solution r = None)
    /\ (~ In ty knownTypes -> success r = false /\ solution r = None).
Proof.
  intros fuel rnd p r Hr ty b.
  split; [|split; [|split]].
  - intros [Hty|Hty]; unfold solvePuzzleWithAI in Hr; fold ty in Hr;
      rewrite Hty in Hr; cbn [str_eqb] in Hr.
    + change (Some (solveCipherPuzzle p) = Some r) in Hr.
      injection Hr as <-. eexists. split; [reflexivity|].
      apply length_pos_iff.
    + change (solvePatternPuzzle fuel p = Some r) in Hr.
      unfold solvePatternPuzzle in Hr.
      repeat match type of Hr with
      | context [if ?t then _ else _] => destruct t
      | context [match ?t with Some _ => _ | None => _ end] => destruct t
      end; try discriminate; injection Hr as <-;
        (eexists; split;
          [ reflexivity
          | first [apply length_pos_iff | exact (length_pos_iff [])] ]).
  - intros Hty. unfold solvePuzzleWithAI in Hr; fold ty in Hr.
    rewrite Hty in Hr.
    change (Some (solveHashPuzzle p) = Some r) in Hr. injection Hr as <-.
    apply hashLoop_solution.
  - intros Hty Hwide.
    assert (Hb : r = solveBitcoinPuzzle rnd p).
    { unfold solvePuzzleWithAI in Hr; fold ty in Hr.
      destruct Hty as [Hty|Hty]; rewrite Hty in Hr;
        [change (Some (solveBitcoinPuzzle rnd p) = Some r) in Hr
        |change (Some (solveBitcoinPuzzle rnd p) = Some r) in Hr];
        congruence. }
    subst r. unfold solveBitcoinPuzzle. fold b.
    replace (20 <? b)%N with true by (symmetry; now apply N.ltb_lt).
    split; reflexivity.
  - intros Hnot. rewrite (dispatch_default fuel rnd p Hnot) in Hr.
    injection Hr as <-. split; reflexivity.
Qed.

Lemma C1_solution_field_witness :
  let p := CryptoPuzzle.mk (lit "hash-preimage") [] (Some (lit "foo")) None in
  success (solveHashPuzzle p) = true <-> solution (solveHashPuzzle p) <> None.
Proof.
  intro p.
  refine (proj1 (proj2 (C1_solution_field 0 (S754_zero false) p
                          (solveHashPuzzle p) eq_refl)) _).
  reflexivity.
Defined.

(** C1, the claim as written, fails.  Catalogue puzzle 16 (10 bits, no
    recorded solution) succeeds without a solution; a 20-bit puzzle
    with a recorded solution fails and still carries it; and the cipher
    strategy, failing on the empty challenge, carries the empty string
    rather than no solution. *)
Lemma C1_counterexample :
  let rnd := S754_zero false in
  let p16 := CryptoPuzzle.mk (lit "bitcoin-address")
               (lit "16JrGhLx5bcBSA34kew9V6Mufa4aXhFe9X") None (Some 10%N) in
  let p20 := CryptoPuzzle.mk (lit "bitcoin-address")
               (lit "1BY8GQbnueYofwSuFAT3USAhGjPrkxDdW9")
               (Some (lit "d2c55")) (Some 20%N) in
  let pc := CryptoPuzzle.mk (lit "cipher-decode") [] None None in
  (success (solveBitcoinPuzzle rnd p16) = true
   /\ solution (solveBitcoinPuzzle rnd p16) = None)
  /\ (success (solveBitcoinPuzzle rnd p20) = false
      /\ solution (solveBitcoinPuzzle rnd p20) = Some (lit "d2c55"))
  /\ (success (solveCipherPuzzle pc) = false
      /\ solution (solveCipherPuzzle pc) = Some []).
Proof. repeat split. Qed.

(** ** Numbers below [2^53] *)

Lemma toDouble_small (z : Z) : Z.abs z < 2 ^ 53 -> toDouble z = Num z.
Proof.
  intros Hz. unfold toDouble.
  assert (Hlog : Z.log2 (Z.abs z) < 53).
  { destruct (Z.eq_dec (Z.abs z) 0) as [E|E].
    - rewrite E. reflexivity.
    - apply Z.log2_lt_pow2; lia. }
  replace (Z.log2 (Z.abs z) + 1 - 53 <=? 0) with true by (symmetry; lia).
  reflexivity.
Qed.

Lemma num_succ_small (z : Z) :
  Z.abs (z + 1) < 2 ^ 53 -> num_add (Num z) (Num 1) = Num (z + 1).
Proof. intros H. simpl. now apply toDouble_small. Qed.

(** ** Primality by trial division *)

Lemma is_prime_trial (z : Z) :
  1 < z ->
  (is_prime z <-> forall d, 2 <= d -> d * d <= z -> ~ (d | z)).
Proof.
  intros Hz. split.
  - intros [_ Hp] d Hd Hdd. apply Hp. nia.
  - intros Htrial. split; [exact Hz|].
    intros d Hd [k Hk].
    assert (Hkpos : 1 < k) by nia.
    destruct (Z_le_gt_dec (d * d) z) as [Hle|Hgt].
    + apply (Htrial d); [lia | exact Hle | now exists k].
    + apply (Htrial k); [lia | nia | exists d; lia].
Qed.

Lemma rem_is_zero_divide (z a : Z) :
  2 <= a -> (rem_is_zero (Num z) (Num a) = true <-> (a | z)).
Proof.
  intros Ha. unfold rem_is_zero.
  replace (a =? 0) with false by (symmetry; lia). simpl.
  rewrite Z.eqb_eq. apply Z.rem_divide. lia.
Qed.

Lemma isPrime_loop_spec (z : Z) :
  z < 2 ^ 53 ->
  forall (f : nat) (i : Z),
    2 <= i -> z < (i + Z.of_nat f) * (i + Z.of_nat f) ->
    exists b, isPrime_loop (S f) (Num z) (Num i) = Some b
              /\ (b = true <-> forall d, i <= d -> d * d <= z -> ~ (d | z)).
Proof.
  intros Hz. induction f as [|f IH]; intros i Hi Hfuel.
  - exists true. cbn [isPrime_loop leb_sqrt].
    replace (i * i <=? z) with false by (symmetry; lia).
    split; [reflexivity|]. split; [|reflexivity].
    intros _ d Hd Hdd. nia.
  - cbn [isPrime_loop leb_sqrt].
    destruct (i * i <=? z) eqn:Hsq.
    + apply Z.leb_le in Hsq.
      destruct (rem_is_zero (Num z) (Num i)) eqn:Hrem.
      * exists false. split; [reflexivity|]. split; [discriminate|].
        intros Hall. exfalso. apply (Hall i); [lia | exact Hsq |].
        now apply rem_is_zero_divide.
      * assert (Hsmall : i < 2 ^ 27).
        { destruct (Z_lt_le_dec i (2 ^ 27)); [assumption|].
          assert (2 ^ 27 * 2 ^ 27 <= i * i) by nia. lia. }
        rewrite num_succ_small by lia.
        destruct (IH (i + 1)) as [b [Hb Hspec]]; [lia | lia |].
        exists b. split; [exact Hb|]. rewrite Hspec. split.
        -- intros Hall d Hd Hdd. destruct (Z.eq_dec d i) as [->|Hne].
           ++ intros Hdiv. apply rem_is_zero_divide in Hdiv; [congruence|lia].
           ++ apply Hall; lia.
        -- intros Hall d Hd Hdd. apply Hall; lia.
    + exists true. split; [reflexivity|]. split; [|reflexivity].
      apply Z.leb_gt in Hsq. intros _ d Hd Hdd. nia.
Qed.

(** [isPrime] decides primality of every integer below [2^53], given as
    much fuel as the integer root of its argument. *)
Lemma isPrime_spec (z : Z) (fuel : nat) :
  z < 2 ^ 53 ->
  (0 < fuel)%nat ->
  z < (Z.of_nat fuel + 1) * (Z.of_nat fuel + 1) ->
  exists b, isPrime fuel (Num z) = Some b /\ (b = true <-> is_prime z).
Proof.
  intros Hz Hfuel Hroot. unfold isPrime. cbn [num_ltb].
  destruct (z <? 2) eqn:Hlt.
  - exists false. split; [reflexivity|]. apply Z.ltb_lt in Hlt.
    split; [discriminate|]. intros [H _]. lia.
  - apply Z.ltb_ge in Hlt.
    destruct fuel as [|f]; [lia|].
    destruct (isPrime_loop_spec z Hz f 2) as [b [Hb Hspec]]; [lia | lia |].
    exists b. split; [exact Hb|]. rewrite Hspec.
    symmetry. apply is_prime_trial. lia.
Qed.

Lemma is_prime_by_trial (z : Z) (fuel : nat) :
  z < 2 ^ 53 -> (0 < fuel)%nat ->
  z < (Z.of_nat fuel + 1) * (Z.of_nat fuel + 1) ->
  isPrime fuel (Num z) = Some true -> is_prime z.
Proof.
  intros Hz Hf Hroot Heval.
  destruct (isPrime_spec z fuel Hz Hf Hroot) as [b [Hb Hspec]].
  rewrite Heval in Hb. injection Hb as <-. now apply Hspec.
Qed.

(** ** The search for the next prime *)

(** Below a prime [P < 2^53] the [while] loop of [getNextPrime] stops at
    the first prime at or above its candidate, with any fuel from
    [P + (P - c)] on. *)
Lemma getNextPrime_loop_spec (P : Z) :
  is_prime P -> P < 2 ^ 53 ->
  forall (k : nat) (c : Z),
    - 2 ^ 53 < c -> c <= P -> P - c <= Z.of_nat k ->
    exists q,
      c <= q <= P /\ is_prime q /\ (forall x, c <= x < q -> ~ is_prime x)
      /\ forall fuel, P + (P - c) <= Z.of_nat fuel ->
                      getNextPrime_loop fuel (Num c) = Some (Num q).
Proof.
  intros HP HPlt.
  assert (HP2 : 1 < P) by (destruct HP; lia).
  assert (Heval : forall c fuel, c <= P -> P <= Z.of_nat fuel ->
            exists b, isPrime fuel (Num c) = Some b
                      /\ (b = true <-> is_prime c)).
  { intros c fuel Hc Hfuel. apply isPrime_spec; [lia | lia | nia]. }
  induction k as [|k IH]; intros c Hlo Hc Hk.
  - assert (c = P) as -> by lia.
    exists P. split; [lia | split; [assumption | split]].
    + intros x Hx. lia.
    + intros fuel Hfuel. destruct fuel as [|f]; [lia|].
      cbn [getNextPrime_loop].
      destruct (Heval P (S f)) as [b [Hb Hspec]]; [lia | lia |].
      rewrite Hb. apply Hspec in HP. now subst b.
  - destruct (Heval c (Z.to_nat P)) as [b0 [_ Hspec0]]; [lia | lia |].
    destruct b0.
    + assert (Hprime : is_prime c) by now apply Hspec0.
      exists c. split; [lia | split; [assumption | split]].
      * intros x Hx. lia.
      * intros fuel Hfuel. destruct fuel as [|f]; [lia|].
        cbn [getNextPrime_loop].
        destruct (Heval c (S f)) as [b [Hb Hspec]]; [lia | lia |].
        rewrite Hb. apply Hspec in Hprime. now subst b.
    + assert (Hnot : ~ is_prime c).
      { intros H. apply Hspec0 in H. discriminate. }
      assert (c <> P) by congruence.
      destruct (IH (c + 1)) as [q [Hq [Hqp [Hmin Hrun]]]]; [lia | lia | lia |].
      exists q. split; [lia | split; [assumption | split]].
      * intros x Hx. destruct (Z.eq_dec x c) as [->|Hne]; [assumption|].
        apply Hmin. lia.
      * intros fuel Hfuel. destruct fuel as [|f]; [lia|].
        cbn [getNextPrime_loop].
        destruct (Heval c (S f)) as [b [Hb Hspec]]; [lia | lia |].
        rewrite Hb. destruct b.
        -- exfalso. apply Hnot. now apply Hspec.
        -- rewrite num_succ_small by lia. apply Hrun. lia.
Qed.

Lemma getNextPrime_spec (n P : Z) :
  is_prime P -> P < 2 ^ 53 -> - 2 ^ 53 < n -> n < P ->
  exists q,
    next_prime_after n q
    /\ forall fuel, 2 * P - n <= Z.of_nat fuel ->
                    getNextPrime fuel (Num n) = Some (Num q).
Proof.
  intros HP HPlt Hlo Hn.
  destruct (getNextPrime_loop_spec P HP HPlt (Z.to_nat (P - (n + 1))) (n + 1))
    as [q [Hq [Hqp [Hmin Hrun]]]]; [lia | lia | lia |].
  exists q. split.
  - split; [lia | split; [assumption|]].
    intros x Hx. apply Hmin. lia.
  - intros fuel Hfuel. unfold getNextPrime.
    rewrite num_succ_small by lia. apply Hrun. lia.
Qed.

(** In particular the search returns from every 32-bit integer:
    [2^31 - 1] is prime. *)
Lemma is_prime_int32_max : is_prime 2147483647.
Proof.
  apply (is_prime_by_trial 2147483647 (Z.to_nat 46341)).
  - reflexivity.
  - apply Nat2Z.inj_lt. rewrite Z2Nat.id; lia.
  - rewrite Z2Nat.id by lia. reflexivity.
  - vm_compute. reflexivity.
Qed.

Lemma getNextPrime_int32 (n : Z) :
  - 2 ^ 53 < n -> n < 2147483647 ->
  exists q,
    next_prime_after n q
    /\ forall fuel, 2 * 2147483647 - n <= Z.of_nat fuel ->
                    getNextPrime fuel (Num n) = Some (Num q).
Proof.
  intros Hlo Hn.
  apply (getNextPrime_spec n 2147483647 is_prime_int32_max);
    [reflexivity | exact Hlo | exact Hn].
Qed.

(** Past [2^53] the candidate no longer moves: [2^53 + 1] rounds back
    to [2^53], which is even, and the loop has no way out. *)
Lemma getNextPrime_loop_stuck (fuel : nat) :
  getNextPrime_loop fuel (Num (2 ^ 53)) = None.
Proof.
  induction fuel as [|f IH]; [reflexivity|].
  cbn [getNextPrime_loop].
  replace (isPrime (S f) (Num (2 ^ 53))) with (Some false) by reflexivity.
  replace (num_add (Num (2 ^ 53)) (Num 1)) with (Num (2 ^ 53)) by reflexivity.
  exact IH.
Qed.

(** ** Strings: [includes] and [split] *)

Lemma startsWith_spec : forall p s,
  startsWith p s = true -> exists v, s = p ++ v.
Proof.
  induction p as [|a p IH]; intros s H.
  - now exists s.
  - destruct s as [|b s]; [discriminate|]. simpl in H.
    apply andb_true_iff in H as [Hab Hp]. apply Z.eqb_eq in Hab. subst b.
    destruct (IH s Hp) as [v ->]. now exists v.
Qed.

Lemma includes_spec : forall s p,
  includes s p = true -> exists u v, s = u ++ p ++ v.
Proof.
  induction s as [|c s IH]; intros p H.
  - simpl in H. rewrite orb_false_r in H.
    destruct (startsWith_spec _ _ H) as [v Hv]. now exists [], v.
  - simpl in H. apply orb_true_iff in H as [H|H].
    + destruct (startsWith_spec _ _ H) as [v Hv]. now exists [], v.
    + destruct (IH p H) as [u [v ->]]. now exists (c :: u), v.
Qed.

Lemma split_nonempty (sep : Z) (s : jsstring) : split sep s <> [].
Proof.
  destruct s as [|c s]; simpl; [discriminate|].
  destruct (c =? sep); [discriminate|].
  destruct (split sep s); discriminate.
Qed.

(** Splitting at a separator splits the token list. *)
Lemma split_app_sep (sep : Z) : forall u w,
  split sep (u ++ sep :: w) = split sep u ++ split sep w.
Proof.
  induction u as [|c u IH]; intros w.
  - simpl. now rewrite Z.eqb_refl.
  - simpl. rewrite IH. destruct (c =? sep); [reflexivity|].
    pose proof (split_nonempty sep u) as Hne.
    destruct (split sep u) as [|tok toks]; [congruence | reflexivity].
Qed.



Lemma last_two_split {A : Type} (l : list A) :
  (2 <= length l)%nat -> exists pre a b, l = pre ++ [a; b].
Proof.
  intros Hlen.
  destruct (rev l) as [|b [|a r]] eqn:Hrev.
  - apply (f_equal (@length A)) in Hrev. rewrite length_rev in Hrev.
    simpl in Hrev. lia.
  - apply (f_equal (@length A)) in Hrev. rewrite length_rev in Hrev.
    simpl in Hrev. lia.
  - exists (rev r), a, b.
    rewrite <- (rev_involutive l), Hrev. simpl. now rewrite <- app_assoc.
Qed.

(** *** Number texts are never empty *)

Lemma decimalFuel_nonempty : forall f z acc,
  acc <> [] -> decimalFuel f z acc <> [].
Proof.
  induction f as [|f IH]; intros z acc Hacc; simpl; [assumption|].
  destruct (z <? 10); [discriminate|]. apply IH. discriminate.
Qed.

Lemma decimal_nonempty (z : Z) : decimal z <> [].
Proof.
  unfold decimal. cbn [decimalFuel].
  destruct (z <? 10); [discriminate|].
  apply decimalFuel_nonempty. discriminate.
Qed.

Lemma toStringPos_nonempty (x : Z) : toStringPos x <> [].
Proof.
  unfold toStringPos. destruct (x <? 2 ^ 53); [apply decimal_nonempty|].
  destruct (shortestFrom _ x _ 1) as [s n].
  pose proof (decimal_nonempty s) as Hs.
  destruct (decimal s) as [|d rest]; [congruence|].
  destruct (n <=? 21); discriminate.
Qed.

Lemma toString_nonempty (x : number) : toString x <> [].
Proof.
  destruct x as [|z|[|]]; try discriminate.
  unfold toString. destruct (z <? 0); [discriminate|].
  apply toStringPos_nonempty.
Qed.

Lemma toString_length_pos (x : number) :
  (0 <? Z.of_nat (length (toString x))) = true.
Proof. apply length_pos_iff, toString_nonempty. Qed.

(** *** The Fibonacci signature leaves at least two numbers *)

Lemma parseNumbers_signature (u v : jsstring) :
  exists A B,
    parseNumbers (u ++ lit "1, 1, 2, 3, 5, 8" ++ v)
    = A ++ [Num 1; Num 2; Num 3; Num 5] ++ B.
Proof.
  unfold parseNumbers.
  change (lit "1, 1, 2, 3, 5, 8")
    with ([49] ++ 44 :: [32; 49] ++ 44 :: [32; 50] ++ 44 :: [32; 51]
               ++ 44 :: [32; 53] ++ 44 :: [32; 56]).
  replace (u ++ ([49] ++ 44 :: [32; 49] ++ 44 :: [32; 50] ++ 44 :: [32; 51]
                      ++ 44 :: [32; 53] ++ 44 :: [32; 56]) ++ v)
    with ((u ++ [49]) ++ 44 :: [32; 49] ++ 44 :: [32; 50] ++ 44 :: [32; 51]
                      ++ 44 :: [32; 53] ++ 44 :: ([32; 56] ++ v))
    by (rewrite <- !app_assoc; reflexivity).
  rewrite split_app_sep.
  rewrite (split_app_sep 44 [32; 49]), (split_app_sep 44 [32; 50]),
          (split_app_sep 44 [32; 51]), (split_app_sep 44 [32; 53]).
  rewrite !map_app, !filter_app.
  eexists _, _. reflexivity.
Qed.

Lemma solveFibonacci_signature (c : jsstring) :
  includes c (lit "1, 1, 2, 3, 5, 8") = true ->
  exists pre n1 n2,
    parseNumbers c = pre ++ [n1; n2]
    /\ solveFibonacci c = toString (num_add n1 n2).
Proof.
  intros Hinc. destruct (includes_spec _ _ Hinc) as [u [v ->]].
  destruct (parseNumbers_signature u v) as [A [B HAB]].
  assert (Hlen : (2 <= length (parseNumbers (u ++ lit "1, 1, 2, 3, 5, 8" ++ v)))%nat).
  { rewrite HAB, !length_app. simpl. lia. }
  destruct (last_two_split _ Hlen) as [pre [n1 [n2 Hsplit]]].
  exists pre, n1, n2. split; [exact Hsplit|].
  unfold solveFibonacci. rewrite Hsplit.
  rewrite length_app. cbn [length].
  replace (length pre + 2 <? 2)%nat with false by (symmetry; apply Nat.ltb_ge; lia).
  rewrite !app_nth2 by lia.
  replace (length pre + 2 - 2 - length pre)%nat with 0%nat by lia.
  replace (length pre + 2 - 1 - length pre)%nat with 1%nat by lia.
  reflexivity.
Qed.

(** ** Sequence inference *)

Lemma binaryToAscii_nonempty (s : jsstring) : binaryToAscii s <> [].
Proof.
  unfold binaryToAscii. pose proof (split_nonempty 32 s) as H.
  destruct (split 32 s); [congruence | discriminate].
Qed.





(** ** Termination *)

(** C9, at the input that defeats it.  [2^53 + 1] is not a double: the
    increment of the candidate [2^53] gives [2^53] again, [isPrime]
    rejects it at once (it is even), and so for no amount of fuel does
    [getNextPrime] return, nor the pattern strategy on a prime sequence
    ending in 9007199254740992. *)
Theorem C9_next_prime_diverges :
  let p := CryptoPuzzle.mk (lit "pattern-analysis")
             (lit "2, 3, 5, 7, 11, 9007199254740992") None None in
  last (parseNumbers (CryptoPuzzle.challenge p)) NaN = Num (2 ^ 53)
  /\ num_add (Num (2 ^ 53)) (Num 1) = Num (2 ^ 53)
  /\ (forall fuel, isPrime (S fuel) (Num (2 ^ 53)) = Some false)
  /\ (forall fuel, getNextPrime fuel (Num (2 ^ 53)) = None)
  /\ (forall fuel, solvePatternPuzzle fuel p = None).
Proof.
  intro p. split; [reflexivity | split; [reflexivity | split; [|split]]].
  - intros fuel. reflexivity.
  - intros fuel. unfold getNextPrime.
    replace (num_add (Num (2 ^ 53)) (Num 1)) with (Num (2 ^ 53)) by reflexivity.
    apply getNextPrime_loop_stuck.
  - intros fuel. unfold solvePatternPuzzle.
    replace (includes (CryptoPuzzle.challenge p) (lit "1, 1, 2, 3, 5, 8"))
      with false by reflexivity.
    replace (includes (CryptoPuzzle.challenge p) (lit "2, 3, 5, 7, 11"))
      with true by reflexivity.
    unfold solvePrimeSequence.
    replace (parseNumbers (CryptoPuzzle.challenge p))
      with [Num 2; Num 3; Num 5; Num 7; Num 11; Num (2 ^ 53)] by reflexivity.
    cbn [length Nat.eqb Nat.sub nth]. unfold getNextPrime.
    replace (num_add (Num (2 ^ 53)) (Num 1)) with (Num (2 ^ 53)) by reflexivity.
    now rewrite getNextPrime_loop_stuck.
Qed.

(** ** Binary64 rounding never crosses a power of two from below *)

Lemma shifted_shr_1 (x : shr_record) : shifted 1 x (shr_1 x).
Proof.
  destruct x as [m r s]. unfold shifted, inexact, shr_1. cbn [shr_m shr_r shr_s].
  intros Hm. change (2 ^ 1) with 2.
  destruct m as [|[p|p|]|p]; cbn [shr_m shr_r shr_s]; try lia.
  - repeat split; try lia. intros H. now left.
  - repeat split; try lia.
    + rewrite Pos2Z.inj_xI. apply (Z.div_unique _ 2 _ 1); lia.
    + intros _. right. rewrite Pos2Z.inj_xI.
      assert (1 = (2 * Z.pos p + 1) mod 2)
        by (apply (Z.mod_unique _ 2 (Z.pos p) 1); lia).
      lia.
  - repeat split; try lia.
    + rewrite Pos2Z.inj_xO. apply (Z.div_unique _ 2 _ 0); lia.
    + intros H. now left.
  - repeat split; try lia. intros _. right. discriminate.
Qed.

Lemma shifted_trans (a b : Z) (x y z : shr_record) :
  0 <= a -> 0 <= b ->
  shifted a x y -> shifted b y z -> shifted (a + b) x z.
Proof.
  intros Ha Hb Hxy Hyz Hx.
  destruct (Hxy Hx) as [Hy [Hym Hyi]].
  destruct (Hyz Hy) as [Hz [Hzm Hzi]].
  assert (Hpa : 0 < 2 ^ a) by (apply Z.pow_pos_nonneg; lia).
  assert (Hpb : 0 < 2 ^ b) by (apply Z.pow_pos_nonneg; lia).
  split; [exact Hz | split].
  - rewrite Hzm, Hym, Z.pow_add_r by lia. apply Z.div_div; lia.
  - intros Hi.
    destruct (Z.eq_dec (shr_m x mod 2 ^ (a + b)) 0) as [E|E]; [|now right].
    left. rewrite Z.pow_add_r in E by lia.
    apply Z.mod_divide in E; [|lia]. destruct E as [k Hk].
    assert (Hxa : shr_m x mod 2 ^ a = 0).
    { rewrite Hk. replace (k * (2 ^ a * 2 ^ b)) with (k * 2 ^ b * 2 ^ a) by ring.
      apply Z.mod_mul. lia. }
    assert (Hyb : shr_m y mod 2 ^ b = 0).
    { rewrite Hym, Hk.
      replace (k * (2 ^ a * 2 ^ b)) with (k * 2 ^ b * 2 ^ a) by ring.
      rewrite Z.div_mul by lia. apply Z.mod_mul. lia. }
    destruct (Hzi Hi) as [Hiy|Hne]; [|contradiction].
    destruct (Hyi Hiy) as [Hix|Hne]; [assumption | contradiction].
Qed.

Lemma shifted_iter_pos (p : positive) :
  forall x, shifted (Z.pos p) x (iter_pos shr_1 p x).
Proof.
  induction p as [p IH|p IH|]; intros x; cbn [iter_pos].
  - replace (Z.pos p~1) with (1 + (Z.pos p + Z.pos p)) by lia.
    apply shifted_trans with (y := shr_1 x); [lia | lia | apply shifted_shr_1 |].
    apply shifted_trans with (y := iter_pos shr_1 p (shr_1 x));
      [lia | lia | apply IH | apply IH].
  - replace (Z.pos p~0) with (Z.pos p + Z.pos p) by lia.
    apply shifted_trans with (y := iter_pos shr_1 p x);
      [lia | lia | apply IH | apply IH].
  - apply shifted_shr_1.
Qed.

Lemma Zdigits2_log2 (m : positive) :
  Zdigits2 (Z.pos m) = Z.log2 (Z.pos m) + 1.
Proof.
  assert (Hsize : forall q, digits2_pos q = Pos.size q).
  { induction q; simpl; congruence. }
  cbn [Zdigits2]. rewrite Hsize.
  destruct m; cbn [Z.log2 Pos.size]; lia.
Qed.

Lemma Zdigits2_le (mx t : Z) :
  0 <= mx -> 0 <= t -> mx < 2 ^ t -> Zdigits2 mx <= t.
Proof.
  intros Hmx Ht Hlt. destruct mx as [|m|m]; [simpl; lia | | lia].
  rewrite Zdigits2_log2.
  assert (Z.log2 (Z.pos m) < t) by (apply Z.log2_lt_pow2; lia). lia.
Qed.

Lemma Zdigits2_gt (m : positive) :
  Z.pos m < 2 ^ Zdigits2 (Z.pos m).
Proof.
  rewrite Zdigits2_log2.
  pose proof (Z.log2_spec (Z.pos m) ltac:(lia)) as [_ H].
  now rewrite <- Z.add_1_r in H.
Qed.

Lemma fexp64 (x : Z) : fexp 53 1024 x = Z.max (x - 53) (-1074).
Proof. reflexivity. Qed.

Lemma ulps_split (k e e' : Z) :
  e <= e' -> e' <= k - 53 ->
  (2 ^ 53 - 1) * 2 ^ (k - 53 - e)
  = (2 ^ 53 - 1) * 2 ^ (k - 53 - e') * 2 ^ (e' - e).
Proof.
  intros H1 H2. rewrite <- Z.mul_assoc, <- Z.pow_add_r by lia.
  do 2 f_equal. lia.
Qed.

Section Rounding64.
Variable k : Z.
Hypothesis Hk : -1021 <= k.

  (** One [shr_fexp] step keeps a mantissa under the bound, with room
      for the round-up when bits were lost. *)
Lemma shr_fexp_below (m e : Z) :
  0 <= m -> e <= k - 53 ->
  m <= (2 ^ 53 - 1) * 2 ^ (k - 53 - e) ->
  let '(mrs, e') := shr_fexp 53 1024 m e loc_Exact in
  e' <= k - 53 /\ 0 <= shr_m mrs
  /\ shr_m mrs <= (2 ^ 53 - 1) * 2 ^ (k - 53 - e')
  /\ (inexact mrs = true ->
      shr_m mrs + 1 <= (2 ^ 53 - 1) * 2 ^ (k - 53 - e')).
Proof.
  intros Hm He Hb. unfold shr_fexp, shr. cbn [shr_record_of_loc].
  rewrite fexp64.
  assert (Hd : Zdigits2 m + e <= k).
  { assert (Zdigits2 m <= k - e); [|lia].
    apply Zdigits2_le; [lia | lia |].
    assert (0 < 2 ^ (k - 53 - e)) by (apply Z.pow_pos_nonneg; lia).
    replace (k - e) with (53 + (k - 53 - e)) by lia.
    rewrite Z.pow_add_r by lia. nia. }
  destruct (Z.max (Zdigits2 m + e - 53) (-1074) - e) as [|n|n] eqn:Hn.
  - cbn [shr_m inexact shr_r shr_s orb].
    repeat split; try lia; try discriminate.
  - pose proof (shifted_iter_pos n (Build_shr_record m false false)) as Hs.
    destruct (Hs Hm) as [Hq [Hqm Hqi]]. cbn [shr_m inexact shr_r shr_s orb] in *.
    set (q := shr_m (iter_pos shr_1 n (Build_shr_record m false false))) in *.
    assert (He' : e + Z.pos n <= k - 53) by lia.
    assert (Hpn : 0 < 2 ^ Z.pos n) by (apply Z.pow_pos_nonneg; lia).
    rewrite (ulps_split k e (e + Z.pos n)) in Hb by lia.
    replace (e + Z.pos n - e) with (Z.pos n) in Hb by lia.
    set (b := (2 ^ 53 - 1) * 2 ^ (k - 53 - (e + Z.pos n))) in *.
    pose proof (Z.div_mod m (2 ^ Z.pos n) ltac:(lia)) as Hdm.
    pose proof (Z.mod_pos_bound m (2 ^ Z.pos n) Hpn) as Hmod.
    rewrite <- Hqm in Hdm.
    split; [exact He' | split; [exact Hq | split]].
    + nia.
    + intros Hi. destruct (Hqi Hi) as [Hf|Hne]; [discriminate|]. nia.
  - cbn [shr_m inexact shr_r shr_s orb].
    repeat split; try lia; try discriminate.
Qed.

Lemma round_nearest_even_below (mrs : shr_record) (bound : Z) :
  0 <= shr_m mrs -> shr_m mrs <= bound ->
  (inexact mrs = true -> shr_m mrs + 1 <= bound) ->
  0 <= round_nearest_even (shr_m mrs) (loc_of_shr_record mrs) <= bound.
Proof.
  destruct mrs as [m [|] [|]]; unfold inexact; cbn; intros H0 H1 H2;
    try destruct (Z.even m); try specialize (H2 eq_refl); lia.
Qed.

  (** Rounding a positive exact value that is at most the largest
      binary64 below [2^k] gives a binary64 below [2^k]. *)
Lemma binary_round_aux_below (mx ex : Z) :
  k <= 1024 -> 0 < mx -> ex <= k - 53 ->
  mx <= (2 ^ 53 - 1) * 2 ^ (k - 53 - ex) ->
  below k (binary_round_aux 53 1024 false mx ex loc_Exact).
Proof.
  intros Hk' Hmx Hex Hb. unfold binary_round_aux.
  pose proof (shr_fexp_below mx ex ltac:(lia) Hex Hb) as H1.
  destruct (shr_fexp 53 1024 mx ex loc_Exact) as [mrs1 e1].
  destruct H1 as [He1 [Hq1 [Hb1 Hi1]]].
  pose proof (round_nearest_even_below mrs1 _ Hq1 Hb1 Hi1) as [Hr0 Hr1].
  pose proof (shr_fexp_below _ e1 Hr0 He1 Hr1) as H2.
  destruct (shr_fexp 53 1024 _ e1 loc_Exact) as [mrs2 e2].
  destruct H2 as [He2 [Hq2 [Hb2 _]]].
  destruct (shr_m mrs2) as [|m2|m2]; [exact I | | lia].
  replace (e2 <=? 1024 - 53) with true by (symmetry; apply Z.leb_le; lia).
  split; assumption.
Qed.
End Rounding64.

(** ** Keyspace strategy, up to the feasibility threshold *)

Lemma isRandom_cases (r : spec_float) :
  isRandom r = true ->
  (exists s, r = S754_zero s)
  \/ (exists m e, r = S754_finite false m e
                  /\ Z.pos m <= 2 ^ 53 - 1 /\ e <= -53).
Proof.
  unfold isRandom. intros H.
  apply andb_true_iff in H as [H Hlt]. apply andb_true_iff in H as [Hv Hle].
  destruct r as [s|[|]| |[|] m e]; try discriminate.
  - left. now exists s.
  - right. exists m, e. split; [reflexivity|].
    cbn [valid_binary] in Hv. unfold bounded, canonical_mantissa in Hv.
    apply andb_true_iff in Hv as [Hc _]. apply Z.eqb_eq in Hc.
    rewrite fexp64 in Hc.
    change (Z.pos (digits2_pos m)) with (Zdigits2 (Z.pos m)) in Hc.
    pose proof (Zdigits2_gt m) as Hgt.
    assert (Hd : Zdigits2 (Z.pos m) <= 53) by lia.
    assert (Hm : Z.pos m < 2 ^ 53).
    { eapply Z.lt_le_trans; [exact Hgt|].
      apply Z.pow_le_mono_r; [lia | exact Hd]. }
    split; [lia|].
    unfold SFltb, float_one, SFcompare in Hlt.
    destruct (e ?= -52) eqn:Hcmp; try discriminate.
    + apply Z.compare_eq in Hcmp. subst e.
      destruct (Pos.compare_cont Eq m 4503599627370496) eqn:Hpc;
        try discriminate.
      assert (Zdigits2 (Z.pos m) <= 52).
      { apply Zdigits2_le; [lia | lia |].
        change (2 ^ 52) with (Z.pos 4503599627370496). exact Hpc. }
      clear Hgt Hm Hle Hpc Hlt.
      generalize dependent (Zdigits2 (Z.pos m)). intros d Hc Hd Hd'. lia.
    + change (e < -52) in Hcmp. lia.
Qed.

Lemma toFloat_pow2_small (b : N) :
  (b <= 20)%N ->
  toFloat (Math_pow2 b) = S754_finite false 4503599627370496 (Z.of_N b - 52).
Proof.
  intros Hb.
  assert (b = 0 \/ b = 1 \/ b = 2 \/ b = 3 \/ b = 4 \/ b = 5 \/ b = 6
          \/ b = 7 \/ b = 8 \/ b = 9 \/ b = 10 \/ b = 11 \/ b = 12 \/ b = 13
          \/ b = 14 \/ b = 15 \/ b = 16 \/ b = 17 \/ b = 18 \/ b = 19
          \/ b = 20)%N as Hcases by lia.
  repeat (destruct Hcases as [->|Hcases]; [reflexivity|]).
  subst b. reflexivity.
Qed.

(** The simulated attempt count [random * 2^b * 0.7], floored, stays
    strictly below [2^b]. *)
Lemma scaled_random_below (rnd : spec_float) (b : Z) :
  0 <= b <= 20 -> isRandom rnd = true ->
  below b (b64_mul
             (b64_mul rnd (S754_finite false 4503599627370496 (b - 52)))
             point7).
Proof.
  intros Hb Hrnd.
  assert (Hfirst : below b (b64_mul rnd
                     (S754_finite false 4503599627370496 (b - 52)))).
  { destruct (isRandom_cases rnd Hrnd) as [[s ->]|[m [e [-> [Hm He]]]]].
    - exact I.
    - unfold b64_mul, SFmul. cbn [xorb].
      apply binary_round_aux_below; try lia.
      rewrite Pos2Z.inj_mul.
      change (Z.pos 4503599627370496) with (2 ^ 52).
      replace (b - 53 - (e + (b - 52))) with (52 + (- 53 - e)) by lia.
      rewrite Z.pow_add_r by lia.
      assert (0 < 2 ^ (- 53 - e)) by (apply Z.pow_pos_nonneg; lia).
      assert (0 < 2 ^ 52) by reflexivity.
      nia. }
  destruct (b64_mul rnd (S754_finite false 4503599627370496 (b - 52)))
    as [s| | |[|] m1 e1]; try contradiction.
  - exact I.
  - destruct Hfirst as [He1 Hm1].
    unfold b64_mul, point7, SFmul. cbn [xorb].
    apply binary_round_aux_below; try lia.
    rewrite Pos2Z.inj_mul.
    replace (b - 53 - (e1 + -53)) with ((b - 53 - e1) + 53) by lia.
    rewrite Z.pow_add_r by lia.
    assert (0 < 2 ^ (b - 53 - e1)) by (apply Z.pow_pos_nonneg; lia).
    assert (Z.pos 6305039478318694 <= 2 ^ 53) by (vm_compute; discriminate).
    nia.
Qed.

Lemma Math_floor_below (x : spec_float) (b : Z) :
  0 <= b <= 20 -> below b x ->
  exists a, Math_floor x = Num a /\ 0 <= a < 2 ^ b.
Proof.
  intros Hb Hx.
  assert (Hpb : 0 < 2 ^ b) by (apply Z.pow_pos_nonneg; lia).
  destruct x as [s| | |[|] m e]; try contradiction.
  - exists 0. split; [reflexivity | lia].
  - destruct Hx as [He Hm]. cbn [Math_floor cond_Zopp].
    replace (0 <=? e) with false by (symmetry; apply Z.leb_gt; lia).
    exists (Z.pos m / 2 ^ (- e)). split; [reflexivity|].
    assert (Hpe : 0 < 2 ^ (- e)) by (apply Z.pow_pos_nonneg; lia).
    split; [apply Z.div_pos; lia|].
    apply Z.div_lt_upper_bound; [exact Hpe|].
    rewrite <- Z.pow_add_r by lia.
    replace (- e + b) with (53 + (b - 53 - e)) by lia.
    rewrite Z.pow_add_r by lia.
    assert (0 < 2 ^ (b - 53 - e)) by (apply Z.pow_pos_nonneg; lia).
    nia.
Qed.

(** C3.  Up to 20 bits, whatever value in [[0, 1)] the random source
    returns, the keyspace strategy reports success exactly when the
    width is at most 15, and an attempt count between 1 and [2^bits]. *)
Theorem C3_bounded_keyspace :
  forall (rnd : spec_float) (p : CryptoPuzzle.t),
    let bits := match CryptoPuzzle.bits p with
                | Some b => b
                | None => 0%N
                end in
    let r := solveBitcoinPuzzle rnd p in
    (bits <= 20)%N ->
    isRandom rnd = true ->
    (success r = true <-> (bits <= 15)%N)
    /\ exists a, attempts r = Num a /\ 1 <= a <= 2 ^ Z.of_N bits.
Proof.
  intros rnd p bits r Hbits Hrnd. subst r. unfold solveBitcoinPuzzle.
  fold bits.
  replace (20 <? bits)%N with false by (symmetry; apply N.ltb_ge; lia).
  cbn [success attempts]. split; [apply N.leb_le|].
  rewrite (toFloat_pow2_small bits Hbits).
  pose proof (scaled_random_below rnd (Z.of_N bits) ltac:(lia) Hrnd) as Hbelow.
  destruct (Math_floor_below _ (Z.of_N bits) ltac:(lia) Hbelow) as [a [Ha Hrange]].
  rewrite Ha. exists (a + 1). split; [|lia].
  apply num_succ_small.
  assert (2 ^ Z.of_N bits <= 2 ^ 20) by (apply Z.pow_le_mono_r; lia).
  assert (2 ^ 20 < 2 ^ 53) by reflexivity. lia.
Qed.

Lemma C3_bounded_keyspace_witness :
  let p := CryptoPuzzle.mk (lit "bitcoin-address")
             (lit "1BY8GQbnueYofwSuFAT3USAhGjPrkxDdW9") None (Some 20%N) in
  let r := solveBitcoinPuzzle (S754_finite false 9007199254740991 (-53)) p in
  (success r = true <-> (20 <= 15)%N)
  /\ exists a, attempts r = Num a /\ 1 <= a <= 2 ^ 20.
Proof.
  intros p.
  apply (C3_bounded_keyspace (S754_finite false 9007199254740991 (-53)) p).
  - vm_compute. discriminate.
  - vm_compute. reflexivity.
Defined.

(** * Further properties of the codecs *)

Example encodings_samples :
  hexOfBytes (lit "Hello") = lit "48656c6c6f"
  /\ joinSpace (map octet (lit "BTC")) = lit "01000010 01010100 01000011"
  /\ base64Encode (lit "PrivateKeyFragment") = lit "UHJpdmF0ZUtleUZyYWdtZW50"
  /\ base64Encode (lit "a") = lit "YQ=="
  /\ base64Encode (lit "ab") = lit "YWI="
  /\ hexOfBytes (xorWithKey (lit "BTC") (lit "KEY") 0) = lit "09111a".
Proof. repeat split. Qed.

(** ** ROT13 *)

Lemma rot13Char_involutive (c : Z) :
  isLetter c = true ->
  isLetter (rot13Char c) = true /\ rot13Char (rot13Char c) = c.
Proof.
  unfold isLetter, in_range. intros H.
  assert (Hc : 65 <= c <= 90 \/ 97 <= c <= 122) by lia.
  assert (Hcases : In c (map Z.of_nat (seq 65 26 ++ seq 97 26))).
  { replace c with (Z.of_nat (Z.to_nat c)) by lia.
    apply in_map, in_or_app.
    destruct Hc; [left | right]; apply in_seq; lia. }
  cbn in Hcases.
  repeat (destruct Hcases as [<-|Hcases]; [split; reflexivity|]).
  contradiction.
Qed.

(** X1.  ROT13 is its own inverse on every string, letters or not, and
    keeps the length. *)
Theorem X1_rot13_involution :
  forall (s : jsstring),
    decodeROT13 (decodeROT13 s) = s
    /\ length (decodeROT13 s) = length s.
Proof.
  intros s. split; [|apply length_map].
  unfold decodeROT13. rewrite map_map.
  rewrite <- (map_id s) at 2. apply map_ext. intros c.
  destruct (isLetter c) eqn:L.
  - destruct (rot13Char_involutive c L) as [L' Hinv]. now rewrite L'.
  - now rewrite L.
Qed.

(** ** Bytes, hex digits and octets *)

Lemma byte_cases (b : Z) :
  isByte b = true -> In b (map Z.of_nat (seq 0 256)).
Proof.
  unfold isByte, in_range. intros H.
  replace b with (Z.of_nat (Z.to_nat b)) by lia.
  apply in_map, in_seq. lia.
Qed.

(** A decidable property checked on the 256 bytes holds of every byte. *)
Lemma forall_bytes (P : Z -> bool) :
  forallb P (map Z.of_nat (seq 0 256)) = true ->
  forall b, isByte b = true -> P b = true.
Proof.
  intros Hall b Hb. rewrite forallb_forall in Hall.
  apply Hall, byte_cases, Hb.
Qed.

Lemma num_eqb_Num (n : number) (z : Z) : num_eqb n (Num z) = true -> n = Num z.
Proof.
  destruct n as [|y|s]; simpl; try discriminate.
  intros H. apply Z.eqb_eq in H. now subst.
Qed.

Lemma fromCharCode_byte (b : Z) : isByte b = true -> fromCharCode (Num b) = b.
Proof.
  unfold isByte, in_range, fromCharCode, toUint16. intros H.
  apply Z.mod_small. lia.
Qed.

Lemma hex_pair_of_byte (b : Z) :
  isByte b = true ->
  isHexDigit (hexDigitOf (b / 16)) = true
  /\ isHexDigit (hexDigitOf (b mod 16)) = true
  /\ 16 * hexValue (hexDigitOf (b / 16)) + hexValue (hexDigitOf (b mod 16)) = b
  /\ isLineTerminator (hexDigitOf (b / 16)) = false
  /\ isLineTerminator (hexDigitOf (b mod 16)) = false.
Proof.
  intros Hb.
  pose proof (forall_bytes
    (fun b => isHexDigit (hexDigitOf (b / 16))
              && isHexDigit (hexDigitOf (b mod 16))
              && (16 * hexValue (hexDigitOf (b / 16))
                  + hexValue (hexDigitOf (b mod 16)) =? b)
              && negb (isLineTerminator (hexDigitOf (b / 16)))
              && negb (isLineTerminator (hexDigitOf (b mod 16))))
    ltac:(vm_compute; reflexivity) b Hb) as H.
  cbv beta in H.
  repeat (apply andb_true_iff in H; destruct H as [H ?]).
  repeat split; try assumption;
    try (now apply Z.eqb_eq); now apply negb_true_iff.
Qed.

Lemma hexOfBytes_shape (bs : list Z) :
  forallb isByte bs = true ->
  Nat.even (length (hexOfBytes bs)) = true
  /\ forallb isHexDigit (hexOfBytes bs) = true
  /\ pairBytes (hexOfBytes bs) = bs.
Proof.
  induction bs as [|b bs IH]; intros H; [repeat split|].
  cbn [forallb] in H. apply andb_true_iff in H as [Hb Hbs].
  destruct (IH Hbs) as [Hev [Hhex Hpairs]].
  destruct (hex_pair_of_byte b Hb) as [Hhi [Hlo [Hval _]]].
  cbn [hexOfBytes flat_map app length Nat.even forallb pairBytes].
  fold (hexOfBytes bs).
  rewrite Hhi, Hlo, Hhex, Hpairs, Hval. repeat split. exact Hev.
Qed.

(** X2.  The hex codec inverts hex encoding, whatever whitespace is
    mixed into the text: a challenge whose non-whitespace units are the
    hex digit pairs of a byte string decodes to that byte string. *)
Theorem X2_hex_round_trip :
  forall (hex : jsstring) (bs : list Z),
    forallb isByte bs = true ->
    filter (fun c => negb (isWhiteSpace c)) hex = hexOfBytes bs ->
    hexToAscii hex = bs.
Proof.
  intros hex bs Hbs Hclean. unfold hexToAscii. rewrite Hclean.
  destruct (hexOfBytes_shape bs Hbs) as [Hev [Hhex Hpairs]].
  rewrite (hexToAscii_pairs _ Hev Hhex). exact Hpairs.
Qed.

Lemma X2_hex_round_trip_witness :
  hexToAscii [52; 56; 32; 54; 53; 10; 54; 99; 9; 54; 99; 54; 102]
  = lit "Hello".
Proof.
  apply (X2_hex_round_trip _ (lit "Hello")); reflexivity.
Defined.

(** ** Binary text *)

Lemma split_no_sep (sep : Z) (t : jsstring) :
  ~ In sep t -> split sep t = [t].
Proof.
  induction t as [|c t IH]; intros Hnot; [reflexivity|].
  simpl. destruct (c =? sep) eqn:E.
  - apply Z.eqb_eq in E. exfalso. apply Hnot. now left.
  - rewrite IH; [reflexivity|]. intros Hin. apply Hnot. now right.
Qed.

Lemma split_joinSpace (tokens : list jsstring) :
  tokens <> [] ->
  (forall t, In t tokens -> ~ In 32 t) ->
  split 32 (joinSpace tokens) = tokens.
Proof.
  induction tokens as [|t rest IH]; intros Hne Hall; [congruence|].
  destruct rest as [|t' rest'].
  - simpl. apply split_no_sep, Hall. now left.
  - change (joinSpace (t :: t' :: rest'))
      with (t ++ 32 :: joinSpace (t' :: rest')).
    rewrite split_app_sep, split_no_sep by (apply Hall; now left).
    rewrite IH; [reflexivity | discriminate |].
    intros x Hx. apply Hall. now right.
Qed.

Lemma octet_spec (b : Z) :
  isByte b = true -> ~ In 32 (octet b) /\ parseInt (octet b) 2 = Num b.
Proof.
  intros Hb.
  pose proof (forall_bytes
    (fun b => negb (existsb (Z.eqb 32) (octet b))
              && num_eqb (parseInt (octet b) 2) (Num b))
    ltac:(vm_compute; reflexivity) b Hb) as H.
  cbv beta in H. apply andb_true_iff in H as [Hno Hparse]. split.
  - intros Hin. apply negb_true_iff in Hno.
    assert (existsb (Z.eqb 32) (octet b) = true); [|congruence].
    apply existsb_exists. exists 32. split; [exact Hin | apply Z.eqb_refl].
  - now apply num_eqb_Num.
Qed.

(** X3.  The binary codec inverts the octet notation: the octets of a
    non-empty byte string, separated by single spaces, decode to that
    byte string. *)
Theorem X3_binary_round_trip :
  forall (bs : list Z),
    bs <> [] ->
    forallb isByte bs = true ->
    binaryToAscii (joinSpace (map octet bs)) = bs.
Proof.
  intros bs Hne Hbs. unfold binaryToAscii.
  rewrite forallb_forall in Hbs.
  rewrite split_joinSpace.
  - rewrite map_map. rewrite <- (map_id bs) at 2.
    apply map_ext_in. intros b Hb.
    destruct (octet_spec b (Hbs b Hb)) as [_ ->].
    apply fromCharCode_byte, Hbs, Hb.
  - destruct bs; [congruence | discriminate].
  - intros t Ht. apply in_map_iff in Ht as [b [<- Hb]].
    apply octet_spec, Hbs, Hb.
Qed.

Lemma X3_binary_round_trip_witness :
  binaryToAscii (lit "01000010 01010100 01000011") = lit "BTC".
Proof.
  apply (X3_binary_round_trip (lit "BTC")); [discriminate | reflexivity].
Defined.

(** X4.  The binary codec returns one code unit per space-separated
    group, empty groups included: its output is one unit longer than the
    number of spaces of its input, so it is never empty, and the empty
    input decodes to the single unit U+0000. *)
Theorem X4_binary_length :
  forall (s : jsstring),
    length (binaryToAscii s) = S (countUnit 32 s)
    /\ binaryToAscii [] = [0].
Proof.
  intros s. split; [|reflexivity].
  unfold binaryToAscii, countUnit. rewrite length_map.
  induction s as [|c s IH]; [reflexivity|].
  simpl. destruct (c =? 32).
  - simpl. now rewrite IH.
  - pose proof (split_nonempty 32 s) as Hne.
    destruct (split 32 s) as [|tok toks]; [congruence|].
    simpl in *. exact IH.
Qed.

(** ** XOR with a repeating key *)

Lemma lxor_byte (a b : Z) :
  isByte a = true -> isByte b = true -> isByte (Z.lxor a b) = true.
Proof.
  unfold isByte, in_range. intros Ha Hb.
  assert (H0 : 0 <= Z.lxor a b) by (apply Z.lxor_nonneg; lia).
  assert (Hlog : forall x, 0 <= x <= 255 -> Z.log2 x < 8).
  { intros x Hx. destruct (Z.eq_dec x 0) as [->|Hne]; [reflexivity|].
    apply Z.log2_lt_pow2; lia. }
  destruct (Z.eq_dec (Z.lxor a b) 0) as [E|E]; [rewrite E; reflexivity|].
  assert (Z.lxor a b < 2 ^ 8).
  { apply Z.log2_lt_pow2; [lia|].
    pose proof (Z.log2_lxor a b ltac:(lia) ltac:(lia)) as Hl.
    pose proof (Hlog a ltac:(lia)). pose proof (Hlog b ltac:(lia)). lia. }
  lia.
Qed.

Lemma toInt32_byte (b : Z) : isByte b = true -> toInt32 (Num b) = b.
Proof.
  unfold isByte, in_range, toInt32. intros H.
  rewrite Z.mod_small; lia.
Qed.

Lemma matchPairs_hexOfBytes (cs : list Z) :
  forallb isByte cs = true ->
  matchPairs (hexOfBytes cs)
  = map (fun c => [hexDigitOf (c / 16); hexDigitOf (c mod 16)]) cs.
Proof.
  induction cs as [|c cs IH]; intros H; [reflexivity|].
  cbn [forallb] in H. apply andb_true_iff in H as [Hc Hcs].
  destruct (hex_pair_of_byte c Hc) as [_ [_ [_ [Hthi Htlo]]]].
  cbn [hexOfBytes flat_map app matchPairs map]. fold (hexOfBytes cs).
  now rewrite Hthi, Htlo, (IH Hcs).
Qed.

Lemma keyAt_byte (key : list Z) (i : nat) :
  key <> [] -> forallb isByte key = true ->
  exists k, keyAt key i = Num k
            /\ nth (Nat.modulo i (length key)) key 0 = k
            /\ isByte k = true.
Proof.
  intros Hne Hkey. unfold keyAt.
  assert (Hlt : (Nat.modulo i (length key) < length key)%nat).
  { apply Nat.mod_upper_bound. destruct key; [congruence | discriminate]. }
  destruct (nth_error key (Nat.modulo i (length key))) as [k|] eqn:E.
  - exists k. split; [reflexivity | split].
    + now apply nth_error_nth.
    + rewrite forallb_forall in Hkey. eapply Hkey, nth_error_In, E.
  - apply nth_error_None in E. lia.
Qed.

Lemma xorLoop_inverts (key : list Z) :
  key <> [] -> forallb isByte key = true ->
  forall (bs : list Z) (i : nat),
    forallb isByte bs = true ->
    forallb isByte (xorWithKey bs key i) = true
    /\ xorLoop (map (fun c => [hexDigitOf (c / 16); hexDigitOf (c mod 16)])
                    (xorWithKey bs key i)) key i
       = bs.
Proof.
  intros Hne Hkey. induction bs as [|b bs IH]; intros i H; [split; reflexivity|].
  cbn [forallb] in H. apply andb_true_iff in H as [Hb Hbs].
  destruct (IH (S i) Hbs) as [Hbytes Hloop].
  destruct (keyAt_byte key i Hne Hkey) as [k [Hk [Hnth Hkb]]].
  cbn [xorWithKey map xorLoop forallb]. rewrite Hnth, Hk, Hloop.
  pose proof (lxor_byte b k Hb Hkb) as Hc.
  rewrite Hc, Hbytes. split; [reflexivity|]. f_equal.
  destruct (hex_pair_of_byte _ Hc) as [Hhi [Hlo [Hval _]]].
  rewrite (parseInt_hex_pair _ _ Hhi Hlo), Hval.
  unfold num_xor. rewrite (toInt32_byte _ Hc), (toInt32_byte _ Hkb).
  rewrite Z.lxor_assoc, Z.lxor_nilpotent, Z.lxor_0_r.
  now apply fromCharCode_byte.
Qed.

(** X5.  The XOR codec inverts XOR encryption under the same key: the
    hex text of a byte string combined with a repeating non-empty key
    of bytes decodes, with that key, to the byte string. *)
Theorem X5_xor_round_trip :
  forall (bs key : list Z),
    key <> [] ->
    forallb isByte key = true ->
    forallb isByte bs = true ->
    decodeXOR (hexOfBytes (xorWithKey bs key 0)) key = bs.
Proof.
  intros bs key Hne Hkey Hbs. unfold decodeXOR.
  destruct (xorLoop_inverts key Hne Hkey bs 0 Hbs) as [Hbytes Hloop].
  now rewrite (matchPairs_hexOfBytes _ Hbytes).
Qed.

Lemma X5_xor_round_trip_witness :
  decodeXOR (lit "09111a") (lit "KEY") = lit "BTC".
Proof.
  apply (X5_xor_round_trip (lit "BTC") (lit "KEY"));
    [discriminate | reflexivity | reflexivity].
Defined.

(** ** Base64 *)

(** Induction over a byte string three bytes at a time. *)
Lemma triple_induction (P : list Z -> Prop) :
  P [] -> (forall a, P [a]) -> (forall a b, P [a; b]) ->
  (forall a b c s, P s -> P (a :: b :: c :: s)) ->
  forall s, P s.
Proof.
  intros H0 H1 H2 H3 s.
  enough (P s /\ (forall a, P (a :: s)) /\ forall a b, P (a :: b :: s)) by tauto.
  induction s as [|c s [IH0 [IH1 IH2]]]; repeat split; auto.
Qed.

Lemma sextet_char (v : Z) :
  isSextet v = true ->
  base64Value (base64Char v) = Some v
  /\ isAsciiWhitespace (base64Char v) = false
  /\ base64Char v <> 61.
Proof.
  unfold isSextet, in_range. intros H.
  assert (Hcases : In v (map Z.of_nat (seq 0 64))).
  { replace v with (Z.of_nat (Z.to_nat v)) by lia. apply in_map, in_seq. lia. }
  cbn in Hcases.
  repeat (destruct Hcases as [<-|Hcases];
          [split; [reflexivity | split; [reflexivity | discriminate]]|]).
  contradiction.
Qed.

(** Linear arithmetic with division and remainder by constants. *)
Ltac divlia := Z.div_mod_to_equations; lia.

Lemma sextets_range (bs : list Z) :
  forallb isByte bs = true -> forallb isSextet (sextets bs) = true.
Proof.
  unfold isByte, isSextet, in_range.
  induction bs as [| a | a b | a b c s IH] using triple_induction;
    cbn [forallb sextets]; intros H;
    rewrite ?andb_true_iff, ?Z.leb_le in H.
  - reflexivity.
  - rewrite ?andb_true_iff, ?Z.leb_le. repeat split; divlia.
  - rewrite ?andb_true_iff, ?Z.leb_le. repeat split; divlia.
  - destruct H as [Ha [Hb [Hc Hs]]]. rewrite (IH Hs).
    rewrite ?andb_true_iff, ?Z.leb_le. repeat split; divlia.
Qed.

Lemma base64Bytes_sextets (bs : list Z) :
  forallb isByte bs = true -> base64Bytes (sextets bs) = bs.
Proof.
  unfold isByte, in_range.
  induction bs as [| a | a b | a b c s IH] using triple_induction;
    cbn [forallb sextets]; intros H;
    rewrite ?andb_true_iff, ?Z.leb_le in H.
  - reflexivity.
  - cbn [base64Bytes]. f_equal. divlia.
  - cbn [base64Bytes]. f_equal; [divlia | f_equal; divlia].
  - destruct H as [Ha [Hb [Hc Hs]]]. cbn [base64Bytes]. rewrite (IH Hs).
    f_equal; [divlia | f_equal; [divlia | f_equal; divlia]].
Qed.

Lemma base64Values_chars (vs : list Z) :
  forallb isSextet vs = true ->
  base64Values (map base64Char vs) = Some vs.
Proof.
  induction vs as [|v vs IH]; intros H; [reflexivity|].
  cbn [forallb] in H. apply andb_true_iff in H as [Hv Hvs].
  cbn [map base64Values].
  destruct (sextet_char v Hv) as [-> _]. now rewrite (IH Hvs).
Qed.

(** The padding restores a length that is a multiple of four, and the
    text without it never has one unit too many. *)
Lemma base64Encode_length (bs : list Z) :
  Z.of_nat (length (base64Encode bs)) mod 4 = 0
  /\ Z.of_nat (length (map base64Char (sextets bs))) mod 4 <> 1.
Proof.
  unfold base64Encode.
  induction bs as [| a | a b | a b c s IH] using triple_induction.
  - split; [reflexivity | discriminate].
  - split; [reflexivity | discriminate].
  - split; [reflexivity | discriminate].
  - assert (Hmod : Nat.modulo (length (a :: b :: c :: s)) 3
                   = Nat.modulo (length s) 3).
    { cbn [length].
      replace (S (S (S (length s)))) with (length s + 1 * 3)%nat by lia.
      apply Nat.Div0.mod_add. }
    rewrite Hmod. cbn [sextets map]. destruct IH as [IH1 IH2].
    rewrite length_app in *. cbn [length] in *.
    rewrite ?Nat2Z.inj_add, ?Nat2Z.inj_succ in *. split; divlia.
Qed.

Lemma strip_head_other (x : Z) (l d : jsstring) :
  x <> 61 ->
  match x :: l with
  | 61 :: 61 :: r => rev r
  | 61 :: r => rev r
  | _ => d
  end = d.
Proof.
  intros Hx.
  destruct x as [|p|p]; try reflexivity.
  do 6 (try (destruct p as [p|p|]; try reflexivity)).
  congruence.
Qed.

Lemma strip_second_other (y : Z) (l d : jsstring) :
  y <> 61 ->
  match 61 :: y :: l with
  | 61 :: 61 :: r => rev r
  | 61 :: r => rev r
  | _ => d
  end = rev (y :: l).
Proof.
  intros Hy.
  destruct y as [|p|p]; try reflexivity.
  do 6 (try (destruct p as [p|p|]; try reflexivity)).
  congruence.
Qed.

Lemma stripPadding_padded (s pad : jsstring) :
  (forall x, In x s -> x <> 61) ->
  pad = [] \/ pad = [61] \/ pad = [61; 61] ->
  Z.of_nat (length (s ++ pad)) mod 4 = 0 ->
  stripPadding (s ++ pad) = s.
Proof.
  intros Hs Hpad Hlen. unfold stripPadding. rewrite Hlen. cbn [Z.eqb].
  assert (Hhead : forall x r, rev s = x :: r -> x <> 61).
  { intros x r Hrev. apply Hs. apply in_rev. rewrite Hrev. now left. }
  destruct Hpad as [-> | [-> | ->]].
  - rewrite app_nil_r. destruct (rev s) as [|x r] eqn:Hrev; [reflexivity|].
    apply strip_head_other. exact (Hhead x r eq_refl).
  - rewrite rev_app_distr. cbn [rev app].
    destruct (rev s) as [|y r] eqn:Hrev.
    + apply (f_equal (@rev Z)) in Hrev. rewrite rev_involutive in Hrev.
      now subst s.
    + rewrite (strip_second_other y r (s ++ [61]) (Hhead y r eq_refl)).
      apply (f_equal (@rev Z)) in Hrev. now rewrite rev_involutive in Hrev.
  - rewrite rev_app_distr. cbn [rev app]. apply rev_involutive.
Qed.

Lemma base64Encode_clean (bs : list Z) :
  forallb isByte bs = true ->
  stripPadding (filter (fun c => negb (isAsciiWhitespace c)) (base64Encode bs))
  = map base64Char (sextets bs).
Proof.
  intros Hbs. pose proof (sextets_range bs Hbs) as Hrange.
  rewrite forallb_forall in Hrange.
  assert (Hchars : forall x, In x (map base64Char (sextets bs)) ->
                             isAsciiWhitespace x = false /\ x <> 61).
  { intros x Hx. apply in_map_iff in Hx as [v [<- Hv]].
    destruct (sextet_char v (Hrange v Hv)) as [_ H]. exact H. }
  assert (Hfilter : filter (fun c => negb (isAsciiWhitespace c))
                           (base64Encode bs) = base64Encode bs).
  { apply forallb_filter_id. apply forallb_forall. intros x Hx.
    unfold base64Encode in Hx. apply in_app_or in Hx as [Hx|Hx].
    - destruct (Hchars x Hx) as [-> _]. reflexivity.
    - destruct (Nat.modulo (length bs) 3) as [|[|[|n]]];
        simpl in Hx; intuition (subst; reflexivity). }
  rewrite Hfilter.
  destruct (base64Encode_length bs) as [Hlen _].
  unfold base64Encode in *.
  apply stripPadding_padded; [| | exact Hlen].
  - intros x Hx. apply Hchars, Hx.
  - destruct (Nat.modulo (length bs) 3) as [|[|[|n]]]; auto.
Qed.

(** X6.  The Base64 codec inverts standard Base64 encoding with
    padding: every byte string is recovered from its encoding. *)
Theorem X6_base64_round_trip :
  forall (bs : list Z),
    forallb isByte bs = true ->
    decodeBase64 (base64Encode bs) = bs.
Proof.
  intros bs Hbs. unfold decodeBase64, atob.
  rewrite (base64Encode_clean bs Hbs).
  destruct (base64Encode_length bs) as [_ Hlen].
  destruct (Z.of_nat (length (map base64Char (sextets bs))) mod 4 =? 1) eqn:E.
  - apply Z.eqb_eq in E. contradiction.
  - rewrite (base64Values_chars _ (sextets_range bs Hbs)).
    apply base64Bytes_sextets, Hbs.
Qed.

Lemma X6_base64_round_trip_witness :
  decodeBase64 (lit "UHJpdmF0ZUtleUZyYWdtZW50") = lit "PrivateKeyFragment".
Proof.
  apply (X6_base64_round_trip (lit "PrivateKeyFragment")). reflexivity.
Defined.

Lemma stripPadding_keeps (d : jsstring) (c : Z) :
  In c d -> c <> 61 -> In c (stripPadding d).
Proof.
  intros Hin Hc. unfold stripPadding.
  destruct (Z.of_nat (length d) mod 4 =? 0); [|exact Hin].
  apply in_rev in Hin.
  destruct (rev d) as [|x l] eqn:Hrev; [contradiction|].
  assert (Hback : forall r, In c r -> In c (rev r))
    by (intros r Hr; now apply in_rev in Hr).
  destruct (Z.eq_dec x 61) as [->|Hx].
  - destruct Hin as [Hin|Hin]; [congruence|].
    destruct l as [|y l']; [contradiction|].
    destruct (Z.eq_dec y 61) as [->|Hy].
    + destruct Hin as [Hin|Hin]; [congruence|]. now apply Hback.
    + rewrite (strip_second_other y l' d Hy). now apply Hback.
  - rewrite (strip_head_other x l d Hx).
    apply in_rev. rewrite Hrev. exact Hin.
Qed.

Lemma base64Values_invalid (d : jsstring) (c : Z) :
  In c d -> base64Value c = None -> base64Values d = None.
Proof.
  induction d as [|x d IH]; intros Hin Hc; [contradiction|].
  cbn [base64Values]. destruct Hin as [->|Hin].
  - now rewrite Hc.
  - rewrite (IH Hin Hc). now destruct (base64Value x).
Qed.

(** X7.  The Base64 codec answers malformed input with the empty
    string: a unit that is neither ASCII whitespace, nor in the Base64
    alphabet, nor the padding sign, anywhere in the input, and likewise
    a length that leaves one unit over a multiple of four once the
    whitespace is removed. *)
Theorem X7_base64_rejects :
  forall (input : jsstring),
    ((exists c, In c input /\ isAsciiWhitespace c = false
                /\ base64Value c = None /\ c <> 61)
     -> decodeBase64 input = [])
    /\ (Z.of_nat (length (filter (fun c => negb (isAsciiWhitespace c)) input))
          mod 4 = 1
        -> decodeBase64 input = []).
Proof.
  intros input. unfold decodeBase64, atob.
  set (d0 := filter (fun c => negb (isAsciiWhitespace c)) input). split.
  - intros [c [Hin [Hws [Hval Hpad]]]].
    assert (Hd0 : In c d0).
    { apply filter_In. split; [exact Hin | now rewrite Hws]. }
    pose proof (stripPadding_keeps d0 c Hd0 Hpad) as Hd.
    rewrite (base64Values_invalid _ c Hd Hval).
    now destruct (Z.of_nat (length (stripPadding d0)) mod 4 =? 1).
  - intros Hlen. unfold stripPadding. rewrite Hlen. cbn [Z.eqb].
    now rewrite Hlen.
Qed.

Lemma X7_base64_rejects_witness :
  decodeBase64 (lit "SGVsbG8_") = [] /\ decodeBase64 (lit "SGVsb") = [].
Proof.
  split.
  - apply (proj1 (X7_base64_rejects (lit "SGVsbG8_"))).
    exists 95. repeat split; [simpl; tauto | discriminate].
  - apply (proj2 (X7_base64_rejects (lit "SGVsb"))). reflexivity.
Defined.

(** * Further properties of the sequence solvers *)

(** X8.  [isPrime] is a primality test for every integer below [2^53]:
    with as many loop iterations as the integer root of its argument it
    returns, and it returns true exactly on the primes; below 2 it
    returns false without entering the loop. *)
Theorem X8_isPrime_decides :
  forall (z : Z) (fuel : nat),
    z < 2 ^ 53 ->
    (z < 2 -> isPrime fuel (Num z) = Some false)
    /\ ((0 < fuel)%nat ->
        z < (Z.of_nat fuel + 1) * (Z.of_nat fuel + 1) ->
        exists b, isPrime fuel (Num z) = Some b /\ (b = true <-> is_prime z)).
Proof.
  intros z fuel Hz. split.
  - intros Hsmall. unfold isPrime. cbn [num_ltb].
    now replace (z <? 2) with true by (symmetry; apply Z.ltb_lt; lia).
  - intros Hfuel Hroot. now apply isPrime_spec.
Qed.

Lemma X8_isPrime_decides_witness :
  exists b, isPrime 9 (Num 97) = Some b /\ (b = true <-> is_prime 97).
Proof.
  apply (proj2 (X8_isPrime_decides 97 9 ltac:(reflexivity)));
    [lia | reflexivity].
Defined.

Lemma is_prime_2 : is_prime 2.
Proof. split; [lia | intros d Hd; lia]. Qed.

(** X9.  [getNextPrime] returns the smallest prime strictly above its
    argument for every integer from [-2^53] to [2^31 - 1], the bounds
    excluded; for every argument below 2 that prime is 2. *)
Theorem X9_getNextPrime_small :
  forall (n : Z),
    - 2 ^ 53 < n -> n < 2147483647 ->
    (exists q,
       next_prime_after n q
       /\ forall fuel, 2 * 2147483647 - n <= Z.of_nat fuel ->
                       getNextPrime fuel (Num n) = Some (Num q))
    /\ (n < 2 ->
        forall fuel, 4 - n <= Z.of_nat fuel ->
                     getNextPrime fuel (Num n) = Some (Num 2)).
Proof.
  intros n Hlo Hhi. split; [now apply getNextPrime_int32|].
  intros Hn fuel Hfuel.
  destruct (getNextPrime_spec n 2 is_prime_2 ltac:(reflexivity) Hlo Hn)
    as [q [[Hnq [[Hq1 Hq] Hmin]] Hrun]].
  assert (q = 2) as ->.
  { destruct (Z_le_gt_dec q 2) as [Hle|Hgt]; [lia|].
    exfalso. apply (Hmin 2); [lia | exact is_prime_2]. }
  apply Hrun. lia.
Qed.

Lemma X9_getNextPrime_small_witness :
  getNextPrime 11 (Num (-7)) = Some (Num 2).
Proof.
  apply (proj2 (X9_getNextPrime_small (-7) ltac:(reflexivity) ltac:(reflexivity)));
    [reflexivity | vm_compute; discriminate].
Defined.

(** X10.  [solveFibonacci] answers with the empty string exactly when
    fewer than two of the comma-separated tokens parse as numbers;
    otherwise its answer is the text of the sum of the last two parsed
    numbers, which is never empty. *)
Theorem X10_solveFibonacci_empty :
  forall (sequence : jsstring),
    ((length (parseNumbers sequence) < 2)%nat -> solveFibonacci sequence = [])
    /\ ((2 <= length (parseNumbers sequence))%nat ->
        solveFibonacci sequence <> []
        /\ exists pre n1 n2,
             parseNumbers sequence = pre ++ [n1; n2]
             /\ solveFibonacci sequence = toString (num_add n1 n2)).
Proof.
  intros sequence. unfold solveFibonacci. split.
  - intros Hlt.
    now replace (length (parseNumbers sequence) <? 2)%nat with true
      by (symmetry; apply Nat.ltb_lt; lia).
  - intros Hge.
    destruct (last_two_split _ Hge) as [pre [n1 [n2 Hsplit]]].
    rewrite Hsplit, length_app. cbn [length].
    replace (length pre + 2 <? 2)%nat with false
      by (symmetry; apply Nat.ltb_ge; lia).
    rewrite !app_nth2 by lia.
    replace (length pre + 2 - 2 - length pre)%nat with 0%nat by lia.
    replace (length pre + 2 - 1 - length pre)%nat with 1%nat by lia.
    cbn [nth]. split; [apply toString_nonempty|].
    now exists pre, n1, n2.
Qed.

Lemma X10_solveFibonacci_empty_witness :
  solveFibonacci (lit "x, 5, y") = [].
Proof.
  apply (proj1 (X10_solveFibonacci_empty (lit "x, 5, y"))).
  vm_compute. lia.
Defined.

Lemma parseNumbers_prime_signature (u v : jsstring) :
  exists A B,
    parseNumbers (u ++ lit "2, 3, 5, 7, 11" ++ v)
    = A ++ [Num 3; Num 5; Num 7] ++ B.
Proof.
  unfold parseNumbers.
  change (lit "2, 3, 5, 7, 11")
    with ([50] ++ 44 :: [32; 51] ++ 44 :: [32; 53] ++ 44 :: [32; 55]
               ++ 44 :: [32; 49; 49]).
  replace (u ++ ([50] ++ 44 :: [32; 51] ++ 44 :: [32; 53] ++ 44 :: [32; 55]
                      ++ 44 :: [32; 49; 49]) ++ v)
    with ((u ++ [50]) ++ 44 :: [32; 51] ++ 44 :: [32; 53] ++ 44 :: [32; 55]
                      ++ 44 :: ([32; 49; 49] ++ v))
    by (rewrite <- !app_assoc; reflexivity).
  rewrite split_app_sep.
  rewrite (split_app_sep 44 [32; 51]), (split_app_sep 44 [32; 53]),
          (split_app_sep 44 [32; 55]).
  rewrite !map_app, !filter_app.
  eexists _, _. reflexivity.
Qed.

(** X11.  A returned pattern outcome is a success with exactly one
    attempt and a named method as soon as one of the three tests fires
    (Fibonacci signature, prime signature, binary text); when none
    fires it is the failure outcome with no attempt, the empty string
    as solution and the empty string as method. *)
Theorem X11_pattern_outcomes :
  forall (fuel : nat) (p : CryptoPuzzle.t) (r : SolverResult.t),
    solvePatternPuzzle fuel p = Some r ->
    let c := CryptoPuzzle.challenge p in
    let fired := includes c (lit "1, 1, 2, 3, 5, 8")
                 || includes c (lit "2, 3, 5, 7, 11") || isBinaryText c in
    (fired = true ->
       success r = true /\ attempts r = Num 1 /\ method r <> []
       /\ exists s, solution r = Some s /\ s <> [])
    /\ (fired = false ->
        r = {| success := false; solution := Some []; attempts := Num 0;
               method := [] |}).
Proof.
  intros fuel p r Hr c fired. subst fired.
  unfold solvePatternPuzzle in Hr. fold c in Hr.
  destruct (includes c (lit "1, 1, 2, 3, 5, 8")) eqn:Hfib.
  - injection Hr as <-. split; [|discriminate]. intros _.
    destruct (solveFibonacci_signature c Hfib) as [pre [n1 [n2 [_ Hsol]]]].
    rewrite Hsol. cbn [success attempts method solution].
    rewrite toString_length_pos.
    repeat split; try discriminate.
    eexists. split; [reflexivity | apply toString_nonempty].
  - destruct (includes c (lit "2, 3, 5, 7, 11")) eqn:Hprime.
    + split; [|discriminate]. intros _.
      destruct (includes_spec _ _ Hprime) as [u [v Hc]].
      destruct (parseNumbers_prime_signature u v) as [A [B HAB]].
      unfold solvePrimeSequence in Hr. rewrite Hc, HAB in Hr.
      replace (length (A ++ [Num 3; Num 5; Num 7] ++ B) =? 0)%nat with false
        in Hr by (symmetry; apply Nat.eqb_neq; rewrite !length_app; simpl; lia).
      destruct (getNextPrime fuel _) as [q|]; [|discriminate].
      injection Hr as <-. cbn [success attempts method solution].
      rewrite toString_length_pos.
      repeat split; try discriminate.
      eexists. split; [reflexivity | apply toString_nonempty].
    + destruct (isBinaryText c) eqn:Hbin.
      * injection Hr as <-. split; [|discriminate]. intros _.
        cbn [success attempts method solution].
        rewrite (proj2 (length_pos_iff _) (binaryToAscii_nonempty c)).
        repeat split; try discriminate.
        eexists. split; [reflexivity | apply binaryToAscii_nonempty].
      * injection Hr as <-. split; [discriminate | reflexivity].
Qed.

Lemma X11_pattern_outcomes_witness :
  let p := CryptoPuzzle.mk (lit "pattern-analysis")
                           (lit "01000010 01010100 01000011") None None in
  let r := {| success := true; solution := Some (lit "BTC");
              attempts := Num 1;
              method := lit "Binary to ASCII conversion" |} in
  success r = true /\ attempts r = Num 1 /\ method r <> []
  /\ exists s, solution r = Some s /\ s <> [].
Proof.
  intros p r.
  apply (proj1 (X11_pattern_outcomes 0 p r eq_refl)). reflexivity.
Defined.

(** * Further properties of the cascade and the dictionary *)

Lemma decodeLoop_invariant : forall ds st,
  let st' := decodeLoop ds st in
  (st' = {| cs_solution := cs_solution st; cs_method := cs_method st;
            cs_attempts := cs_attempts st + Z.of_nat (length ds) |})
  \/ (exists d, In d ds /\ accepted (fn d tt) = true
                /\ cs_solution st' = fn d tt /\ cs_method st' = name d
                /\ cs_attempts st < cs_attempts st'
                   <= cs_attempts st + Z.of_nat (length ds)).
Proof.
  induction ds as [|d0 rest IH]; intros st; cbn [decodeLoop length].
  - left. destruct st; cbn. f_equal. lia.
  - destruct (accepted (fn d0 tt)) eqn:Hacc.
    + right. exists d0. cbn. repeat split; auto; lia.
    + destruct (IH {| cs_solution := cs_solution st;
                      cs_method := cs_method st;
                      cs_attempts := cs_attempts st + 1 |})
        as [Hnone|[d [Hin [Hd [Hsol [Hm Hatt]]]]]].
      * left. cbv zeta in Hnone. rewrite Hnone. cbn. f_equal. lia.
      * right. exists d. cbv zeta in *. cbn in Hatt.
        repeat split; auto; try lia. now right.
Qed.

Lemma accepted_printable (s : jsstring) :
  accepted s = true -> s <> [] /\ forallb (in_range 32 126) s = true.
Proof.
  unfold accepted, isPrintable. destruct s as [|c s]; [discriminate|].
  intros H. apply andb_true_iff in H as [_ H]. split; [discriminate | exact H].
Qed.

(** X12.  Every cipher outcome reports between one and five attempts.
    A success carries a non-empty solution of printable ASCII only and
    the name of one of the five decoders; a failure has used all five
    attempts and carries the empty string as solution and as method. *)
Theorem X12_cipher_outcomes :
  forall (p : CryptoPuzzle.t),
    let r := solveCipherPuzzle p in
    exists a,
      attempts r = Num a /\ 1 <= a <= 5
      /\ (success r = true ->
          (exists s, solution r = Some s /\ s <> []
                     /\ forallb (in_range 32 126) s = true)
          /\ In (method r)
                (map lit [ "Base64"; "Hex to ASCII"; "ROT13";
                           "Binary to ASCII"; "XOR with KEY" ]%string))
      /\ (success r = false ->
          a = 5 /\ solution r = Some [] /\ method r = []).
Proof.
  intros p r. subst r. unfold solveCipherPuzzle.
  set (c := CryptoPuzzle.challenge p).
  set (st0 := {| cs_solution := []; cs_method := []; cs_attempts := 0 |}).
  destruct (decodeLoop_invariant (decoders c) st0)
    as [Hnone|[d [Hin [Hacc [Hsol [Hm Hatt]]]]]]; cbv zeta in *.
  - rewrite Hnone. cbn. exists 5. repeat split; try lia; discriminate.
  - exists (cs_attempts (decodeLoop (decoders c) st0)).
    cbn [success solution attempts method].
    change (Z.of_nat (length (decoders c))) with 5 in Hatt.
    change (cs_attempts st0) with 0 in Hatt.
    rewrite Hsol, Hm. rewrite (accepted_nonempty _ Hacc).
    split; [reflexivity | split; [lia | split; [|discriminate]]].
    intros _. split.
    + exists (fn d tt). split; [reflexivity|]. now apply accepted_printable.
    + unfold decoders in Hin. cbn [In] in Hin.
      destruct Hin as [<-|[<-|[<-|[<-|[<-|[]]]]]]; cbn; tauto.
Qed.

Lemma X12_cipher_outcomes_witness :
  let p := CryptoPuzzle.mk (lit "cipher-decode") (lit "SGVsbG8gV29ybGQ=")
                           None None in
  exists s, solution (solveCipherPuzzle p) = Some s /\ s <> [].
Proof.
  intros p. destruct (X12_cipher_outcomes p) as [a [_ [_ [Hs _]]]].
  destruct (Hs ltac:(vm_compute; reflexivity)) as [[s [H1 [H2 _]]] _].
  exists s. split; assumption.
Defined.

Lemma hashLoop_no_target : forall inputs a,
  hashLoop inputs None a =
    {| success := false; solution := None;
       attempts := Num (a + Z.of_nat (length inputs));
       method := lit "Dictionary attack attempted" |}.
Proof.
  induction inputs as [|input rest IH]; intros a; cbn [hashLoop length].
  - do 2 f_equal. lia.
  - rewrite IH. do 2 f_equal. lia.
Qed.

Lemma hashLoop_attempts : forall inputs target a,
  inputs <> [] ->
  exists n, attempts (hashLoop inputs target a) = Num n
            /\ a < n <= a + Z.of_nat (length inputs).
Proof.
  induction inputs as [|input rest IH]; intros target a Hne; [congruence|].
  cbn [hashLoop length].
  destruct (match target with Some sol => str_eqb input sol | None => false end).
  - exists (a + 1). cbn. split; [reflexivity | lia].
  - destruct rest as [|input' rest'].
    + exists (a + 1). cbn. split; [reflexivity | lia].
    + destruct (IH target (a + 1) ltac:(discriminate)) as [n [Hn Hrange]].
      exists n. split; [exact Hn|]. cbn [length] in *. lia.
Qed.

(** X13.  The dictionary search always reports between 1 and 12
    attempts, and on a puzzle without a recorded solution it fails after
    trying all 12 candidates, the empty candidate included. *)
Theorem X13_dictionary_bounds :
  forall (p : CryptoPuzzle.t),
    (exists n, attempts (solveHashPuzzle p) = Num n /\ 1 <= n <= 12)
    /\ (CryptoPuzzle.solution p = None ->
        solveHashPuzzle p =
          {| success := false; solution := None; attempts := Num 12;
             method := lit "Dictionary attack attempted" |}).
Proof.
  intros p. unfold solveHashPuzzle. split.
  - destruct (hashLoop_attempts commonInputs (CryptoPuzzle.solution p) 0
                ltac:(discriminate)) as [n [Hn Hrange]].
    exists n. split; [exact Hn|]. cbn in Hrange. lia.
  - intros ->. now rewrite hashLoop_no_target.
Qed.

Lemma X13_dictionary_bounds_witness :
  solveHashPuzzle
    (CryptoPuzzle.mk (lit "hash-preimage") (lit "4f8b42c2") None None)
  = {| success := false; solution := None; attempts := Num 12;
       method := lit "Dictionary attack attempted" |}.
Proof.
  apply (proj2 (X13_dictionary_bounds
                  (CryptoPuzzle.mk (lit "hash-preimage") (lit "4f8b42c2")
                                   None None))).
  reflexivity.
Defined.

(** * Properties of the catalogue helpers *)

Example catalogue_samples :
  length cryptoPuzzles = 22%nat
  /\ map Entry.id cryptoPuzzles
     = [1; 2; 3; 4; 5; 6; 7; 8; 9; 10; 11; 12; 13; 14; 15; 16; 17; 18; 19;
        20; 21; 22]
  /\ option_map Entry.id (getPuzzleById cryptoPuzzles 9) = Some 9
  /\ getPuzzleById cryptoPuzzles 23 = None
  /\ map Entry.id (getPuzzlesByType cryptoPuzzles (lit "cipher-decode"))
     = [9; 10; 11; 12]
  /\ map Entry.id (getPuzzlesByDifficulty cryptoPuzzles impossible) = [21; 22].
Proof. repeat split. Qed.

Lemma difficulty_eqb_eq (a b : Difficulty) :
  difficulty_eqb a b = true <-> a = b.
Proof. destruct a, b; simpl; split; congruence. Qed.

(** ** Counter tables *)

Section Counters.
Variable K : Type.
Variable eqb : K -> K -> bool.
Hypothesis eqb_eq : forall a b, eqb a b = true <-> a = b.

Lemma getKey_incr_same (k : K) (obj : counters K) (v : number) :
  getKey eqb k obj = Some v ->
  getKey eqb k (incrKey eqb k obj) = Some (num_add v (Num 1)).
Proof.
  induction obj as [|[k' v'] rest IH]; intros H; [discriminate|].
  cbn [getKey incrKey] in *. destruct (eqb k' k) eqn:E.
  - injection H as ->. cbn [getKey]. now rewrite E.
  - cbn [getKey]. rewrite E. now apply IH.
Qed.

Lemma getKey_incr_other (k k0 : K) (obj : counters K) :
  k0 <> k -> getKey eqb k (incrKey eqb k0 obj) = getKey eqb k obj.
Proof.
  intros Hne. induction obj as [|[k' v'] rest IH].
  - cbn [getKey incrKey]. destruct (eqb k0 k) eqn:E; [|reflexivity].
    apply eqb_eq in E. contradiction.
  - cbn [getKey incrKey]. destruct (eqb k' k0) eqn:E0.
    + apply eqb_eq in E0. subst k'. cbn [getKey].
      destruct (eqb k0 k) eqn:E; [|reflexivity].
      apply eqb_eq in E. contradiction.
    + cbn [getKey]. destruct (eqb k' k); [reflexivity | exact IH].
Qed.

(** Counting the elements of [l] by their key [key] raises the counter
    of [k] by the number of elements whose key is [k]. *)
Lemma count_by_key {A : Type} (key : A -> K) (k : K) :
  forall (l : list A) (obj : counters K) (n : Z),
    getKey eqb k obj = Some (Num n) ->
    0 <= n -> n + Z.of_nat (length l) < 2 ^ 53 ->
    getKey eqb k (fold_left (fun o a => incrKey eqb (key a) o) l obj)
    = Some (Num (n + Z.of_nat (length (filter (fun a => eqb (key a) k) l)))).
Proof.
  induction l as [|a l IH]; intros obj n Hget Hn Hbound.
  - cbn. rewrite Hget. do 2 f_equal. lia.
  - cbn [fold_left filter]. cbn [length] in Hbound.
    destruct (eqb (key a) k) eqn:E.
    + apply eqb_eq in E. rewrite E.
      rewrite (IH _ (n + 1)); [cbn [length]; do 2 f_equal; lia | | lia | lia].
      rewrite (getKey_incr_same k obj _ Hget). cbn [num_add].
      f_equal. apply toDouble_small. lia.
    + rewrite (IH _ n); [reflexivity | | lia | lia].
      rewrite getKey_incr_other; [exact Hget|].
      intros Heq. rewrite Heq in E.
      now rewrite (proj2 (eqb_eq k k) eq_refl) in E.
Qed.
End Counters.

Lemma countPuzzles_folds : forall puzzles bt bd,
  countPuzzles puzzles bt bd
  = (fold_left (fun o p => incrKey str_eqb (typeOf p) o) puzzles bt,
     fold_left (fun o p => incrKey difficulty_eqb (Entry.difficulty p) o)
               puzzles bd).
Proof.
  induction puzzles as [|p rest IH]; intros bt bd; [reflexivity|].
  cbn [countPuzzles fold_left]. apply IH.
Qed.

(** X14.  For a catalogue of fewer than [2^53] puzzles the statistics
    count correctly: the counter of each of the five types is the number
    of puzzles [getPuzzlesByType] returns for it, the counter of each
    difficulty the number [getPuzzlesByDifficulty] returns, and [total]
    is the length of the catalogue. *)
Theorem X14_statistics_counts :
  forall (puzzles : list Entry.t) (solvedIds : list Z),
    Z.of_nat (length puzzles) < 2 ^ 53 ->
    let stats := getPuzzleStatistics puzzles solvedIds in
    (forall type, In type knownTypes ->
       getKey str_eqb type (PuzzleStatistics.byType stats)
       = Some (arrayLength (getPuzzlesByType puzzles type)))
    /\ (forall d,
          getKey difficulty_eqb d (PuzzleStatistics.byDifficulty stats)
          = Some (arrayLength (getPuzzlesByDifficulty puzzles d)))
    /\ PuzzleStatistics.total stats = arrayLength puzzles.
Proof.
  intros puzzles solvedIds Hlen stats. subst stats.
  unfold getPuzzleStatistics. rewrite countPuzzles_folds.
  cbn [PuzzleStatistics.byType PuzzleStatistics.byDifficulty
       PuzzleStatistics.total].
  split; [|split; [|reflexivity]].
  - intros type Htype. unfold arrayLength, getPuzzlesByType.
    rewrite (count_by_key jsstring str_eqb str_eqb_eq typeOf type puzzles _ 0);
      [reflexivity | | lia | lia].
    unfold knownTypes in Htype. cbn [map In] in Htype.
    destruct Htype as [<-|[<-|[<-|[<-|[<-|[]]]]]]; reflexivity.
  - intros d. unfold arrayLength, getPuzzlesByDifficulty.
    rewrite (count_by_key Difficulty difficulty_eqb difficulty_eqb_eq
               Entry.difficulty d puzzles _ 0);
      [reflexivity | | lia | lia].
    destruct d; reflexivity.
Qed.

Lemma X14_statistics_counts_witness :
  getKey str_eqb (lit "cipher-decode")
    (PuzzleStatistics.byType (getPuzzleStatistics cryptoPuzzles [1; 2; 3]))
  = Some (Num 4).
Proof.
  refine (proj1 (X14_statistics_counts cryptoPuzzles [1; 2; 3] _) _ _).
  - vm_compute. reflexivity.
  - simpl. tauto.
Defined.

(** ** Sorting *)

Section StableSort.
Variable A : Type.
Variable cmp : A -> A -> Z.
Hypothesis cmp_total : forall x y, cmp x y <= 0 \/ cmp y x <= 0.
Hypothesis cmp_trans :
  forall x y z, cmp x y <= 0 -> cmp y z <= 0 -> cmp x z <= 0.

Lemma sortInsert_In (x z : A) (l : list A) :
  In z (sortInsert cmp x l) <-> z = x \/ In z l.
Proof.
  induction l as [|y rest IH]; cbn [sortInsert].
  - simpl. intuition.
  - destruct (cmp x y <=? 0); cbn [In]; [intuition|].
    rewrite IH. intuition.
Qed.

Lemma sort_In (z : A) (l : list A) : In z (sort cmp l) <-> In z l.
Proof.
  induction l as [|x rest IH]; cbn [sort]; [reflexivity|].
  rewrite sortInsert_In, IH. cbn [In]. intuition.
Qed.

(** The first element of the sorted array is a least element. *)
Lemma sort_head_least (l : list A) (x : A) (rest : list A) :
  sort cmp l = x :: rest -> forall y, In y l -> cmp x y <= 0.
Proof.
  revert x rest. induction l as [|a l IH]; intros x rest Hsort y Hy.
  - discriminate.
  - cbn [sort] in Hsort.
    destruct (sort cmp l) as [|m tl] eqn:Hl.
    + cbn in Hsort. injection Hsort as <- <-.
      destruct Hy as [<-|Hy].
      * destruct (cmp_total a a); assumption.
      * apply (sort_In y l) in Hy. rewrite Hl in Hy. contradiction.
    + specialize (IH m tl eq_refl).
      cbn [sortInsert] in Hsort.
      destruct (cmp a m <=? 0) eqn:E.
      * injection Hsort as <- <-. apply Z.leb_le in E.
        destruct Hy as [<-|Hy].
        -- destruct (cmp_total a a); assumption.
        -- apply cmp_trans with m; [exact E | now apply IH].
      * injection Hsort as <- <-. apply Z.leb_gt in E.
        destruct Hy as [<-|Hy].
        -- destruct (cmp_total m a); [assumption | lia].
        -- now apply IH.
Qed.
End StableSort.

Lemma compareEntries_le (a b : Entry.t) :
  compareEntries a b <= 0 <->
  difficultyOrder (Entry.difficulty a) < difficultyOrder (Entry.difficulty b)
  \/ (difficultyOrder (Entry.difficulty a)
      = difficultyOrder (Entry.difficulty b)
      /\ Entry.id a <= Entry.id b).
Proof.
  unfold compareEntries.
  destruct (difficultyOrder (Entry.difficulty a)
            =? difficultyOrder (Entry.difficulty b)) eqn:E; cbn [negb].
  - apply Z.eqb_eq in E. lia.
  - apply Z.eqb_neq in E. lia.
Qed.

Lemma isAvailable_spec (solvedIds : list Z) (p : Entry.t) :
  isAvailable solvedIds p = true <->
  ~ In (Entry.id p) solvedIds /\ Entry.difficulty p <> impossible.
Proof.
  unfold isAvailable, includesId.
  rewrite andb_true_iff, !negb_true_iff. split.
  - intros [Hid Hd]. split.
    + intros Hin.
      assert (existsb (fun x => x =? Entry.id p) solvedIds = true);
        [|congruence].
      apply existsb_exists. exists (Entry.id p). split; [exact Hin | apply Z.eqb_refl].
    + intros Heq. apply difficulty_eqb_eq in Heq. congruence.
  - intros [Hid Hd]. split.
    + destruct (existsb _ solvedIds) eqn:E; [|reflexivity].
      apply existsb_exists in E as [x [Hx Hxe]]. apply Z.eqb_eq in Hxe.
      subst x. contradiction.
    + destruct (difficulty_eqb (Entry.difficulty p) impossible) eqn:E;
        [|reflexivity].
      apply difficulty_eqb_eq in E. contradiction.
Qed.

(** X15.  [getRecommendedPuzzle] returns nothing exactly when every
    puzzle is solved or impossible; otherwise it returns a puzzle of
    the catalogue that is neither solved nor impossible and that comes
    first among those by difficulty (easy, medium, hard) and, within a
    difficulty, by id. *)
Theorem X15_recommended_is_least :
  forall (puzzles : list Entry.t) (solvedIds : list Z),
    (getRecommendedPuzzle puzzles solvedIds = None <->
     forall p, In p puzzles ->
               In (Entry.id p) solvedIds \/ Entry.difficulty p = impossible)
    /\ (forall r, getRecommendedPuzzle puzzles solvedIds = Some r ->
          In r puzzles
          /\ ~ In (Entry.id r) solvedIds
          /\ Entry.difficulty r <> impossible
          /\ forall q, In q puzzles ->
               ~ In (Entry.id q) solvedIds ->
               Entry.difficulty q <> impossible ->
               difficultyOrder (Entry.difficulty r)
                 < difficultyOrder (Entry.difficulty q)
               \/ (Entry.difficulty r = Entry.difficulty q
                   /\ Entry.id r <= Entry.id q)).
Proof.
  intros puzzles solvedIds. unfold getRecommendedPuzzle.
  set (avail := filter (isAvailable solvedIds) puzzles).
  assert (Hav : forall p, In p avail <->
                  In p puzzles /\ ~ In (Entry.id p) solvedIds
                  /\ Entry.difficulty p <> impossible).
  { intros p. unfold avail. rewrite filter_In, isAvailable_spec. tauto. }
  assert (Htot : forall x y : Entry.t,
             compareEntries x y <= 0 \/ compareEntries y x <= 0).
  { intros x y. rewrite !compareEntries_le. lia. }
  assert (Htrans : forall x y z : Entry.t,
             compareEntries x y <= 0 -> compareEntries y z <= 0 ->
             compareEntries x z <= 0).
  { intros x y z. rewrite !compareEntries_le. lia. }
  destruct avail as [|a0 avail'] eqn:Havail.
  - cbn [length Nat.eqb]. split.
    + split; [|reflexivity]. intros _ p Hp.
      destruct (In_dec Z.eq_dec (Entry.id p) solvedIds) as [Hs|Hs]; [now left|].
      right. destruct (Entry.difficulty p) eqn:Hd; try reflexivity;
        exfalso; apply (proj2 (Hav p)); (split; [exact Hp | split; [exact Hs|]]);
        rewrite Hd; discriminate.
    + discriminate.
  - cbn [length Nat.eqb].
    destruct (sort compareEntries (a0 :: avail')) as [|first rest] eqn:Hsort.
    + exfalso. assert (In a0 []) as [].
      rewrite <- Hsort. apply sort_In. now left.
    + split.
      * split; [discriminate|]. intros Hall. exfalso.
        destruct (proj1 (Hav a0) ltac:(now left)) as [Hp [Hs Hd]].
        destruct (Hall a0 Hp); contradiction.
      * intros r Hr. injection Hr as <-.
        assert (Hfirst : In first (a0 :: avail')).
        { apply (sort_In _ compareEntries). rewrite Hsort. now left. }
        destruct (proj1 (Hav first) Hfirst) as [Hp [Hs Hd]].
        split; [exact Hp | split; [exact Hs | split; [exact Hd|]]].
        intros q Hq Hqs Hqd.
        assert (Hqa : In q (a0 :: avail')) by (apply Hav; tauto).
        pose proof (sort_head_least _ compareEntries Htot Htrans _ _ _
                      Hsort q Hqa) as Hle.
        apply compareEntries_le in Hle.
        destruct Hle as [Hlt|[Heq Hid]]; [now left|]. right. split; [|exact Hid].
        destruct (Entry.difficulty first), (Entry.difficulty q);
          simpl in Heq; congruence.
Qed.

Lemma X15_recommended_is_least_witness :
  match getRecommendedPuzzle cryptoPuzzles [1; 2; 3] with
  | Some r => In r cryptoPuzzles /\ ~ In (Entry.id r) [1; 2; 3]
              /\ Entry.difficulty r <> impossible
  | None => False
  end.
Proof.
  destruct (getRecommendedPuzzle cryptoPuzzles [1; 2; 3]) as [r|] eqn:E;
    [|vm_compute in E; discriminate E].
  destruct (proj2 (X15_recommended_is_least cryptoPuzzles [1; 2; 3]) r E)
    as [H1 [H2 [H3 _]]].
  split; [exact H1 | split; [exact H2 | exact H3]].
Defined.

(** * Properties of the puzzle utilities *)

Lemma trimStart_ws_app (ws s : jsstring) :
  forallb isWhiteSpace ws = true -> trimStart (ws ++ s) = trimStart s.
Proof.
  induction ws as [|c ws IH]; intros H; [reflexivity|].
  cbn [forallb] in H. apply andb_true_iff in H as [Hc Hws].
  cbn [app trimStart]. rewrite Hc. now apply IH.
Qed.

Lemma trimStart_app_ws (s ws : jsstring) :
  forallb isWhiteSpace ws = true ->
  trimStart (s ++ ws) = match trimStart s with
                        | [] => []
                        | t => t ++ ws
                        end.
Proof.
  intros H. induction s as [|c s IH].
  - cbn [app trimStart]. rewrite <- (app_nil_r ws) at 1.
    now rewrite trimStart_ws_app.
  - cbn [app trimStart]. destruct (isWhiteSpace c); [exact IH | reflexivity].
Qed.

(** White space around a text does not survive [trim]. *)
Lemma trim_padding (ws t ws' : jsstring) :
  forallb isWhiteSpace ws = true -> forallb isWhiteSpace ws' = true ->
  trim (ws ++ t ++ ws') = trim t.
Proof.
  intros Hws Hws'. unfold trim.
  rewrite trimStart_ws_app by exact Hws.
  rewrite trimStart_app_ws by exact Hws'.
  destruct (trimStart t) as [|c r] eqn:E; [reflexivity|].
  rewrite rev_app_distr. rewrite trimStart_ws_app; [reflexivity|].
  rewrite forallb_forall in *. intros x Hx. apply Hws'.
  now apply in_rev.
Qed.

Lemma str_eqb_refl (s : jsstring) : str_eqb s s = true.
Proof. now apply str_eqb_eq. Qed.

(** A successful dictionary search returns the recorded solution, and
    that is one of the candidates. *)
Lemma hashLoop_found : forall inputs target a,
  success (hashLoop inputs target a) = true ->
  solution (hashLoop inputs target a) = target
  /\ exists s, target = Some s /\ In s inputs.
Proof.
  induction inputs as [|input rest IH]; intros target a H; [discriminate|].
  cbn [hashLoop] in *. destruct target as [sol|].
  - destruct (str_eqb input sol) eqn:E.
    + apply str_eqb_eq in E. subst sol. cbn. split; [reflexivity|].
      exists input. split; [reflexivity | now left].
    + destruct (IH _ _ H) as [Hs [s [Hts Hin]]]. split; [exact Hs|].
      exists s. split; [exact Hts | now right].
  - destruct (IH _ _ H) as [_ [s [Hts _]]]. discriminate.
Qed.

(** X16.  [validateSolution], for every lower-casing function: a puzzle
    without recorded solution, or with the empty string as recorded
    solution, validates no proposal; a non-empty recorded solution
    validates itself, also with white space around it; and what a
    successful dictionary search returns is a candidate of its list
    that validates unless it is the empty string. *)
Theorem X16_validateSolution :
  forall (toLowerCase : jsstring -> jsstring) (puzzle : CryptoPuzzle.t),
    (CryptoPuzzle.solution puzzle = None
     \/ CryptoPuzzle.solution puzzle = Some [] ->
     forall s, validateSolution toLowerCase puzzle s = false)
    /\ (forall t ws ws',
          CryptoPuzzle.solution puzzle = Some t -> t <> [] ->
          forallb isWhiteSpace ws = true ->
          forallb isWhiteSpace ws' = true ->
          validateSolution toLowerCase puzzle (ws ++ t ++ ws') = true)
    /\ (success (solveHashPuzzle puzzle) = true ->
        exists s, solution (solveHashPuzzle puzzle) = Some s
                  /\ In s commonInputs
                  /\ validateSolution toLowerCase puzzle s
                     = negb (str_eqb s [])).
Proof.
  intros toLowerCase puzzle. split; [|split].
  - intros [H|H] s; unfold validateSolution; now rewrite H.
  - intros t ws ws' Ht Hne Hws Hws'. unfold validateSolution. rewrite Ht.
    destruct t as [|c t']; [congruence|].
    rewrite trim_padding by assumption. apply str_eqb_refl.
  - intros H. unfold solveHashPuzzle in *.
    destruct (hashLoop_found _ _ _ H) as [Hs [s [Hts Hin]]].
    exists s. rewrite Hs. split; [exact Hts | split; [exact Hin|]].
    unfold validateSolution. rewrite Hts.
    destruct s as [|c s']; [reflexivity|].
    cbn [str_eqb negb]. apply str_eqb_refl.
Qed.

Lemma X16_validateSolution_witness :
  validateSolution (fun s => s)
    (CryptoPuzzle.mk (lit "hash-preimage") (lit "sha256") (Some (lit "foo"))
                     None)
    (lit "  " ++ lit "foo" ++ lit " ") = true.
Proof.
  refine (proj1 (proj2 (X16_validateSolution (fun s => s) _))
            (lit "foo") (lit "  ") (lit " ") _ _ _ _).
  - reflexivity.
  - discriminate.
  - reflexivity.
  - reflexivity.
Defined.

Lemma isSolvable_not_impossible (p : Entry.t) :
  Entry.difficulty p <> impossible ->
  isSolvableWithCurrentTech p =
  match CryptoPuzzle.bits (Entry.puzzle p) with
  | Some b =>
      if str_eqb (typeOf p) (lit "bitcoin-address") && negb (b =? 0)%N
      then (b <=? 30)%N
      else true
  | None => true
  end.
Proof.
  intros Hd. unfold isSolvableWithCurrentTech.
  destruct (difficulty_eqb (Entry.difficulty p) impossible) eqn:E;
    [|reflexivity].
  apply difficulty_eqb_eq in E. contradiction.
Qed.

Lemma solveBitcoinPuzzle_success (rnd : spec_float) (q : CryptoPuzzle.t) :
  success (solveBitcoinPuzzle rnd q) = (widthOf q <=? 15)%N.
Proof.
  unfold solveBitcoinPuzzle, widthOf.
  destruct (20 <? _)%N eqn:E; cbn [success]; [|reflexivity].
  apply N.ltb_lt in E. symmetry. apply N.leb_gt. lia.
Qed.

(** X17.  [isSolvableWithCurrentTech] against the keyspace strategy, for
    every random draw.  On a puzzle not marked impossible, what the
    strategy succeeds on is reported solvable; the converse fails: a
    width above 15 is reported solvable when the type is not
    bitcoin-address or the width is at most 30, and the strategy fails
    on it.  A bitcoin-address puzzle wider than 30 bits is reported
    unsolvable, whatever its difficulty. *)
Theorem X17_solvable_vs_keyspace :
  forall (rnd : spec_float) (p : Entry.t),
    let r := solveBitcoinPuzzle rnd (Entry.puzzle p) in
    (Entry.difficulty p <> impossible -> success r = true ->
     isSolvableWithCurrentTech p = true)
    /\ (Entry.difficulty p <> impossible ->
        (15 < widthOf (Entry.puzzle p))%N ->
        typeOf p <> lit "bitcoin-address"
        \/ (widthOf (Entry.puzzle p) <= 30)%N ->
        isSolvableWithCurrentTech p = true /\ success r = false)
    /\ (typeOf p = lit "bitcoin-address" ->
        (30 < widthOf (Entry.puzzle p))%N ->
        isSolvableWithCurrentTech p = false /\ success r = false).
Proof.
  intros rnd p r. subst r. rewrite solveBitcoinPuzzle_success.
  split; [|split].
  - intros Hd Hs. rewrite (isSolvable_not_impossible p Hd).
    apply N.leb_le in Hs. unfold widthOf in Hs.
    destruct (CryptoPuzzle.bits (Entry.puzzle p)) as [b|]; [|reflexivity].
    destruct (_ && _); [|reflexivity]. apply N.leb_le. lia.
  - intros Hd Hw Hor. split; [|apply N.leb_gt; exact Hw].
    rewrite (isSolvable_not_impossible p Hd). unfold widthOf in *.
    destruct (CryptoPuzzle.bits (Entry.puzzle p)) as [b|]; [|reflexivity].
    destruct (str_eqb (typeOf p) (lit "bitcoin-address")) eqn:E.
    + apply str_eqb_eq in E. destruct Hor as [Hne|Hle]; [contradiction|].
      cbn [andb]. destruct (negb (b =? 0)%N); [|reflexivity].
      now apply N.leb_le.
    + reflexivity.
  - intros Ht Hw. split; [|apply N.leb_gt; lia].
    unfold isSolvableWithCurrentTech, widthOf in *.
    destruct (difficulty_eqb (Entry.difficulty p) impossible); [reflexivity|].
    destruct (CryptoPuzzle.bits (Entry.puzzle p)) as [b|]; [|lia].
    rewrite Ht, str_eqb_refl. cbn [andb].
    destruct (b =? 0)%N eqn:E0; [apply N.eqb_eq in E0; lia|].
    cbn [negb]. apply N.leb_gt. exact Hw.
Qed.

Lemma X17_solvable_vs_keyspace_witness :
  let p := catalogueEntry 18 "bitcoin-address" hard
             "1BY8GQbnueYofwSuFAT3USAhGjPrkxDdW9" None (Some 20%N) in
  In p cryptoPuzzles
  /\ isSolvableWithCurrentTech p = true
  /\ success (solveBitcoinPuzzle (S754_zero false) (Entry.puzzle p)) = false.
Proof.
  intros p. split.
  - unfold cryptoPuzzles. do 17 right. left. reflexivity.
  - refine (proj1 (proj2 (X17_solvable_vs_keyspace (S754_zero false) p))
              _ _ _).
    + discriminate.
    + reflexivity.
    + right. vm_compute. discriminate.
Defined.

(** * Properties of the page *)

Lemma status_eqb_eq (a b : Status) : status_eqb a b = true <-> a = b.
Proof. destruct a, b; simpl; split; congruence. Qed.

(** ** Updates of the puzzles with a given id *)

Section UpdateById.
Variable puzzleId : Z.
Variable g : PuzzleState.t -> PuzzleState.t.
Hypothesis g_entry : forall p, PuzzleState.entry (g p) = PuzzleState.entry p.

Local Abbreviation upd :=
  (map (fun p : PuzzleState.t => if stateId p =? puzzleId then g p else p)).

Lemma upd_entries (l : list PuzzleState.t) :
  map PuzzleState.entry (upd l) = map PuzzleState.entry l.
Proof.
  rewrite map_map. apply map_ext. intros p.
  destruct (stateId p =? puzzleId); [apply g_entry | reflexivity].
Qed.

Lemma upd_other (l : list PuzzleState.t) (k : nat) (p : PuzzleState.t) :
  nth_error l k = Some p -> stateId p <> puzzleId ->
  nth_error (upd l) k = Some p.
Proof.
  intros Hk Hne. rewrite nth_error_map, Hk. cbn [option_map].
  apply Z.eqb_neq in Hne. now rewrite Hne.
Qed.

Lemma upd_In (l : list PuzzleState.t) (p' : PuzzleState.t) :
  In p' (upd l) ->
  (In p' l /\ stateId p' <> puzzleId)
  \/ (exists p, In p l /\ stateId p = puzzleId /\ p' = g p).
Proof.
  intros H. apply in_map_iff in H as [p [Hp Hin]].
  destruct (stateId p =? puzzleId) eqn:E.
  - right. exists p. apply Z.eqb_eq in E. now split; [|split].
  - left. subst p'. apply Z.eqb_neq in E. now split.
Qed.

Lemma upd_In_id (l : list PuzzleState.t) (p' : PuzzleState.t) :
  In p' (upd l) -> stateId p' = puzzleId ->
  exists p, In p l /\ stateId p = puzzleId /\ p' = g p.
Proof.
  intros H Hid. destruct (upd_In l p' H) as [[_ Hne]|Hex];
    [contradiction | exact Hex].
Qed.

Lemma upd_In_intro (l : list PuzzleState.t) (p : PuzzleState.t) :
  In p l -> stateId p = puzzleId -> In (g p) (upd l).
Proof.
  intros Hin Hid. apply in_map_iff. exists p. split; [|exact Hin].
  apply Z.eqb_eq in Hid. now rewrite Hid.
Qed.

(** When the ids are distinct and the one puzzle with the id is left
    as it is, so is the array. *)
Lemma upd_fixed (l : list PuzzleState.t) (e : PuzzleState.t) :
  NoDup (map stateId l) -> In e l -> stateId e = puzzleId -> g e = e ->
  upd l = l.
Proof.
  intros Hnd He Hid Hg. rewrite <- (map_id l) at 2.
  apply map_ext_in. intros p Hp.
  destruct (stateId p =? puzzleId) eqn:E; [|reflexivity].
  apply Z.eqb_eq in E. assert (p = e) as ->; [|exact Hg].
  clear Hg. induction l as [|x l IH]; [contradiction|].
  cbn [map] in Hnd. apply NoDup_cons_iff in Hnd as [Hx Hl].
  destruct Hp as [<-|Hp], He as [<-|He]; try reflexivity.
  - exfalso. apply Hx. rewrite E, <- Hid. now apply in_map.
  - exfalso. apply Hx. rewrite Hid, <- E. now apply in_map.
  - now apply IH.
Qed.
End UpdateById.

Lemma settled_entry (r : SolverResult.t) (p : PuzzleState.t) :
  PuzzleState.entry (settled r p) = PuzzleState.entry p.
Proof. unfold settled. now destruct (solvedBy r). Qed.

(** The two updates of a solve request, taken together. *)
Lemma markResult_markSolving (puzzleId : Z) (r : SolverResult.t)
  (l : list PuzzleState.t) :
  markResult puzzleId r (markSolving puzzleId l)
  = map (fun p => if stateId p =? puzzleId then settled r p else p) l.
Proof.
  unfold markResult, markSolving, settled.
  destruct (solvedBy r); rewrite map_map; apply map_ext; intros p;
    destruct (stateId p =? puzzleId) eqn:E;
    unfold stateId in *; cbn [PuzzleState.entry PuzzleState.foundSolution];
    rewrite E; reflexivity.
Qed.

Lemma find_id_spec (puzzleId : Z) (l : list PuzzleState.t) :
  match find (fun p => stateId p =? puzzleId) l with
  | Some e => In e l /\ stateId e = puzzleId
  | None => forall p, In p l -> stateId p <> puzzleId
  end.
Proof.
  destruct (find _ l) as [e|] eqn:E.
  - apply find_some in E as [Hin He]. apply Z.eqb_eq in He. now split.
  - intros p Hp. apply Z.eqb_neq. exact (find_none _ _ E p Hp).
Qed.

(** What a solve request that returns has done. *)
Lemma handleSolvePuzzle_inv (fuel : nat) (rnd : spec_float)
  (puzzles : list PuzzleState.t) (puzzleId : Z)
  (puzzles' : list PuzzleState.t) :
  handleSolvePuzzle fuel rnd puzzles puzzleId = Some puzzles' ->
  puzzles' = puzzles
  \/ exists e r,
       find (fun p => stateId p =? puzzleId) puzzles = Some e
       /\ In e puzzles /\ stateId e = puzzleId
       /\ Entry.difficulty (PuzzleState.entry e) <> impossible
       /\ solvePuzzleWithAI fuel rnd (Entry.puzzle (PuzzleState.entry e))
          = Some r
       /\ puzzles'
          = map (fun p => if stateId p =? puzzleId then settled r p else p)
                puzzles.
Proof.
  unfold handleSolvePuzzle. intros H.
  pose proof (find_id_spec puzzleId puzzles) as Hfind.
  destruct (find _ puzzles) as [e|] eqn:Hf; [|left; congruence].
  destruct Hfind as [Hin Hid].
  destruct (difficulty_eqb _ impossible) eqn:Hd; [left; congruence|].
  destruct (solvePuzzleWithAI fuel rnd _) as [r|] eqn:Hr; [|discriminate].
  right. exists e, r. rewrite markResult_markSolving in H.
  split; [reflexivity|]. split; [exact Hin|]. split; [exact Hid|].
  split; [|split; [exact Hr | congruence]].
  intros Heq. apply difficulty_eqb_eq in Heq. congruence.
Qed.

Lemma settled_status (r : SolverResult.t) (p : PuzzleState.t) :
  PuzzleState.status (settled r p)
  = if solvedBy r then solved else unsolved.
Proof. unfold settled. now destruct (solvedBy r). Qed.

Lemma solvedBy_solution (r : SolverResult.t) :
  solvedBy r = true -> exists s, solution r = Some s /\ s <> [].
Proof.
  unfold solvedBy. intros H. apply andb_true_iff in H as [_ H].
  destruct (solution r) as [[|c s]|]; try discriminate.
  exists (c :: s). split; [reflexivity | discriminate].
Qed.

(** A solve request for a puzzle that is found and not impossible. *)
Lemma handleSolvePuzzle_found (fuel : nat) (rnd : spec_float)
  (puzzles : list PuzzleState.t) (puzzleId : Z) (e : PuzzleState.t) :
  find (fun p => stateId p =? puzzleId) puzzles = Some e ->
  Entry.difficulty (PuzzleState.entry e) <> impossible ->
  handleSolvePuzzle fuel rnd puzzles puzzleId
  = option_map
      (fun r => map (fun p => if stateId p =? puzzleId then settled r p else p)
                    puzzles)
      (solvePuzzleWithAI fuel rnd (Entry.puzzle (PuzzleState.entry e))).
Proof.
  intros Hf Hd. unfold handleSolvePuzzle. rewrite Hf.
  destruct (difficulty_eqb _ impossible) eqn:E.
  - apply difficulty_eqb_eq in E. contradiction.
  - destruct (solvePuzzleWithAI fuel rnd _) as [r|]; [|reflexivity].
    cbn [option_map]. now rewrite markResult_markSolving.
Qed.

(** X18.  What [handleSolvePuzzle] changes.  When every puzzle with the
    requested id is marked impossible (in particular when there is
    none) it returns with the state as it was, without running a
    solver.  Whenever it returns, the puzzles are the same in the same
    order and the state of a puzzle with another id is as before; and
    when the first puzzle with the id is not impossible, the puzzles
    with the id are then solved or unsolved, never left as solving. *)
Theorem X18_solve_request_frame :
  forall (fuel : nat) (rnd : spec_float) (puzzles : list PuzzleState.t)
         (puzzleId : Z),
    ((forall p, In p puzzles -> stateId p = puzzleId ->
                Entry.difficulty (PuzzleState.entry p) = impossible) ->
     handleSolvePuzzle fuel rnd puzzles puzzleId = Some puzzles)
    /\ (forall puzzles',
          handleSolvePuzzle fuel rnd puzzles puzzleId = Some puzzles' ->
          map PuzzleState.entry puzzles' = map PuzzleState.entry puzzles
          /\ (forall k p, nth_error puzzles k = Some p ->
                          stateId p <> puzzleId ->
                          nth_error puzzles' k = Some p)
          /\ (forall e,
                find (fun p => stateId p =? puzzleId) puzzles = Some e ->
                Entry.difficulty (PuzzleState.entry e) <> impossible ->
                forall p', In p' puzzles' -> stateId p' = puzzleId ->
                           PuzzleState.status p' <> solving)).
Proof.
  intros fuel rnd puzzles puzzleId. split.
  - intros Hall. unfold handleSolvePuzzle.
    pose proof (find_id_spec puzzleId puzzles) as Hfind.
    destruct (find _ puzzles) as [e|]; [|reflexivity].
    destruct Hfind as [Hin Hid]. rewrite (Hall e Hin Hid). reflexivity.
  - intros puzzles' H. split; [|split].
    + destruct (handleSolvePuzzle_inv _ _ _ _ _ H)
        as [->|[e [r [_ [_ [_ [_ [_ ->]]]]]]]]; [reflexivity|].
      apply upd_entries. apply settled_entry.
    + intros k p Hk Hne.
      destruct (handleSolvePuzzle_inv _ _ _ _ _ H)
        as [->|[e [r [_ [_ [_ [_ [_ ->]]]]]]]]; [exact Hk|].
      now apply upd_other.
    + intros e Hf Hd p' Hp' Hid'.
      rewrite (handleSolvePuzzle_found _ _ _ _ e Hf Hd) in H.
      destruct (solvePuzzleWithAI fuel rnd _) as [r|]; [|discriminate].
      cbn [option_map] in H. injection H as <-.
      destruct (upd_In_id _ _ _ _ Hp' Hid') as [p [_ [_ ->]]].
      rewrite settled_status. destruct (solvedBy r); discriminate.
Qed.

Lemma X18_solve_request_frame_witness :
  handleSolvePuzzle 0 (S754_zero false) (initialPuzzles cryptoPuzzles) 21
  = Some (initialPuzzles cryptoPuzzles).
Proof.
  refine (proj1 (X18_solve_request_frame 0 (S754_zero false)
                   (initialPuzzles cryptoPuzzles) 21) _).
  intros p Hp Hid. unfold initialPuzzles in Hp.
  apply in_map_iff in Hp as [q [<- Hq]].
  unfold stateId in Hid. cbn [PuzzleState.entry] in *.
  unfold cryptoPuzzles in Hq. cbn [In] in Hq.
  repeat (destruct Hq as [<-|Hq]; [first [discriminate Hid | reflexivity]|]).
  contradiction.
Defined.

Lemma stopSolving_entries (l : list PuzzleState.t) :
  map PuzzleState.entry (stopSolving l) = map PuzzleState.entry l.
Proof.
  unfold stopSolving. rewrite map_map. apply map_ext. intros p.
  now destruct (status_eqb _ solving).
Qed.

Lemma initial_solved_have_solution :
  solvedHaveSolution (initialPuzzles cryptoPuzzles).
Proof.
  intros p Hp Hs. unfold initialPuzzles in Hp.
  apply in_map_iff in Hp as [q [<- Hq]].
  cbn [PuzzleState.status PuzzleState.foundSolution] in *.
  unfold cryptoPuzzles in Hq. cbn [In] in Hq.
  repeat (destruct Hq as [<-|Hq];
          [first [discriminate Hs
                 | eexists; split; [reflexivity | discriminate]]|]).
  contradiction.
Qed.

Lemma handleSolvePuzzle_keeps (fuel : nat) (rnd : spec_float)
  (puzzles : list PuzzleState.t) (puzzleId : Z)
  (puzzles' : list PuzzleState.t) :
  solvedHaveSolution puzzles ->
  handleSolvePuzzle fuel rnd puzzles puzzleId = Some puzzles' ->
  solvedHaveSolution puzzles'.
Proof.
  intros Hinv H.
  destruct (handleSolvePuzzle_inv _ _ _ _ _ H)
    as [->|[e [r [_ [_ [_ [_ [_ ->]]]]]]]]; [exact Hinv|].
  intros p' Hp' Hs.
  destruct (upd_In _ _ _ _ Hp') as [[Hin _]|[p [_ [_ ->]]]].
  - now apply Hinv.
  - rewrite settled_status in Hs. unfold settled.
    destruct (solvedBy r) eqn:Hr; [|discriminate].
    cbn [PuzzleState.foundSolution]. now apply solvedBy_solution.
Qed.

(** X19.  Every puzzle the page shows as solved carries a non-empty
    found solution: this holds for the initial state built from the
    catalogue, and a state that has the property keeps it through
    [handleSolvePuzzle] and through [handleToggleSolver], in both of
    its branches; [handleToggleSolver] also keeps the puzzles and their
    order, and stopping the solver leaves no puzzle as solving. *)
Theorem X19_solved_have_solution :
  solvedHaveSolution (initialPuzzles cryptoPuzzles)
  /\ forall (fuel : nat) (rnd : spec_float) (puzzles : list PuzzleState.t),
       solvedHaveSolution puzzles ->
       (forall puzzleId puzzles',
          handleSolvePuzzle fuel rnd puzzles puzzleId = Some puzzles' ->
          solvedHaveSolution puzzles')
       /\ (forall solverRunning puzzles',
             handleToggleSolver fuel rnd solverRunning puzzles
             = Some puzzles' ->
             solvedHaveSolution puzzles'
             /\ map PuzzleState.entry puzzles'
                = map PuzzleState.entry puzzles
             /\ (solverRunning = true ->
                 forall p, In p puzzles' ->
                           PuzzleState.status p <> solving)).
Proof.
  split; [exact initial_solved_have_solution|].
  intros fuel rnd puzzles Hinv. split.
  - intros puzzleId puzzles'. now apply handleSolvePuzzle_keeps.
  - intros solverRunning puzzles' H. unfold handleToggleSolver in H.
    destruct solverRunning.
    + injection H as <-. split; [|split].
      * intros p' Hp' Hs. unfold stopSolving in Hp'.
        apply in_map_iff in Hp' as [p [<- Hp]].
        destruct (status_eqb (PuzzleState.status p) solving);
          [discriminate Hs | now apply Hinv].
      * apply stopSolving_entries.
      * intros _ p' Hp'. unfold stopSolving in Hp'.
        apply in_map_iff in Hp' as [p [<- Hp]].
        destruct (status_eqb (PuzzleState.status p) solving) eqn:E;
          [discriminate|].
        intros Heq. apply status_eqb_eq in Heq. congruence.
    + split; [|split; [|discriminate]].
      * destruct (find _ puzzles) as [e|].
        -- now apply (handleSolvePuzzle_keeps _ _ _ _ _ Hinv H).
        -- now injection H as <-.
      * destruct (find _ puzzles) as [e|]; [|now injection H as <-].
        destruct (handleSolvePuzzle_inv _ _ _ _ _ H)
          as [->|[e' [r [_ [_ [_ [_ [_ ->]]]]]]]]; [reflexivity|].
        apply upd_entries. apply settled_entry.
Qed.

Lemma X19_solved_have_solution_witness :
  solvedHaveSolution (stopSolving (initialPuzzles cryptoPuzzles)).
Proof.
  refine (proj1 (proj2 (proj2 X19_solved_have_solution 0%nat (S754_zero false)
                          (initialPuzzles cryptoPuzzles)
                          (proj1 X19_solved_have_solution))
                   true _ eq_refl)).
Defined.

(** ** Which outcomes the page shows as solved *)

Lemma solvedBy_cipher (q : CryptoPuzzle.t) :
  solvedBy (solveCipherPuzzle q) = success (solveCipherPuzzle q).
Proof.
  unfold solvedBy, solveCipherPuzzle. cbn [success solution].
  now destruct (cs_solution _).
Qed.

Lemma solvedBy_pattern (fuel : nat) (q : CryptoPuzzle.t) (r : SolverResult.t) :
  solvePatternPuzzle fuel q = Some r -> solvedBy r = success r.
Proof.
  unfold solvePatternPuzzle. intros H.
  assert (Hshape : exists s m a,
             r = {| success := 0 <? Z.of_nat (length s); solution := Some s;
                    attempts := Num a; method := m |}).
  { destruct (includes _ (lit "1, 1, 2, 3, 5, 8"));
      [injection H as <-; do 3 eexists; reflexivity|].
    destruct (includes _ (lit "2, 3, 5, 7, 11")).
    - destruct (solvePrimeSequence fuel _); [|discriminate].
      injection H as <-; do 3 eexists; reflexivity.
    - destruct (isBinaryText _); injection H as <-.
      + do 3 eexists; reflexivity.
      + exists [], [], 0. reflexivity. }
  destruct Hshape as [s [m [a ->]]]. unfold solvedBy. cbn [success solution].
  now destruct s.
Qed.

Lemma solvedBy_hashLoop : forall inputs target a,
  solvedBy (hashLoop inputs target a) = true <->
  exists s, target = Some s /\ s <> [] /\ In s inputs.
Proof.
  induction inputs as [|input rest IH]; intros target a; cbn [hashLoop].
  - split; [discriminate|]. intros [s [_ [_ []]]].
  - destruct target as [sol|].
    + destruct (str_eqb input sol) eqn:E.
      * apply str_eqb_eq in E. subst sol. unfold solvedBy.
        cbn [success solution andb]. split.
        -- intros H. exists input. split; [reflexivity|].
           split; [now destruct input | now left].
        -- intros [s [Hs [Hne _]]]. injection Hs as <-.
           destruct input; [congruence | reflexivity].
      * rewrite IH. split.
        -- intros [s [Hs [Hne Hin]]]. exists s. now split; [|split; [|right]].
        -- intros [s [Hs [Hne [Heq|Hin]]]].
           ++ injection Hs as <-. rewrite Heq, str_eqb_refl in E.
              discriminate.
           ++ exists s. now split; [|split].
    + rewrite IH. split; intros [s [Hs _]]; discriminate.
Qed.

Lemma solvedBy_keyspace (rnd : spec_float) (q : CryptoPuzzle.t) :
  solvedBy (solveBitcoinPuzzle rnd q) = true <->
  (widthOf q <= 15)%N
  /\ exists s, CryptoPuzzle.solution q = Some s /\ s <> [].
Proof.
  unfold solvedBy. rewrite solveBitcoinPuzzle_success.
  rewrite andb_true_iff, N.leb_le.
  unfold solveBitcoinPuzzle. fold (widthOf q).
  destruct (20 <? widthOf q)%N eqn:E; cbn [solution].
  - apply N.ltb_lt in E. split; [intros [_ H]; discriminate | lia].
  - destruct (CryptoPuzzle.solution q) as [[|c s]|].
    + split; [intros [_ H]; discriminate|].
      intros [_ [s [Hs Hne]]]. congruence.
    + split; [|tauto]. intros [H _]. split; [exact H|].
      exists (c :: s). split; [reflexivity | discriminate].
    + split; [intros [_ H]; discriminate|].
      intros [_ [s [Hs _]]]. discriminate.
Qed.

Lemma dispatch_cipher (fuel : nat) (rnd : spec_float) (q : CryptoPuzzle.t) :
  CryptoPuzzle.type q = lit "cipher-decode" ->
  solvePuzzleWithAI fuel rnd q = Some (solveCipherPuzzle q).
Proof. intros H. unfold solvePuzzleWithAI. rewrite H. reflexivity. Qed.

Lemma dispatch_pattern (fuel : nat) (rnd : spec_float) (q : CryptoPuzzle.t) :
  CryptoPuzzle.type q = lit "pattern-analysis" ->
  solvePuzzleWithAI fuel rnd q = solvePatternPuzzle fuel q.
Proof. intros H. unfold solvePuzzleWithAI. rewrite H. reflexivity. Qed.

Lemma dispatch_hash (fuel : nat) (rnd : spec_float) (q : CryptoPuzzle.t) :
  CryptoPuzzle.type q = lit "hash-preimage" ->
  solvePuzzleWithAI fuel rnd q = Some (solveHashPuzzle q).
Proof. intros H. unfold solvePuzzleWithAI. rewrite H. reflexivity. Qed.

Lemma dispatch_keyspace (fuel : nat) (rnd : spec_float) (q : CryptoPuzzle.t) :
  CryptoPuzzle.type q = lit "bitcoin-address"
  \/ CryptoPuzzle.type q = lit "private-key-recovery" ->
  solvePuzzleWithAI fuel rnd q = Some (solveBitcoinPuzzle rnd q).
Proof. intros [H|H]; unfold solvePuzzleWithAI; rewrite H; reflexivity. Qed.

(** X20.  After a solve request for a puzzle that is found and not
    impossible has returned, the page shows the puzzle as solved
    exactly when the strategy succeeded with a non-empty solution:
    for a cipher or pattern puzzle when the strategy succeeded; for a
    hash puzzle when the recorded solution is a non-empty candidate of
    the dictionary; for a keyspace puzzle when the width is at most 15
    and the catalogue records a non-empty solution; and never for a
    type that is not one of the five. *)
Theorem X20_shown_as_solved :
  forall (fuel : nat) (rnd : spec_float) (puzzles : list PuzzleState.t)
         (puzzleId : Z) (e : PuzzleState.t) (puzzles' : list PuzzleState.t),
    find (fun p => stateId p =? puzzleId) puzzles = Some e ->
    Entry.difficulty (PuzzleState.entry e) <> impossible ->
    handleSolvePuzzle fuel rnd puzzles puzzleId = Some puzzles' ->
    forall p', In p' puzzles' -> stateId p' = puzzleId ->
      let q := Entry.puzzle (PuzzleState.entry e) in
      let shown := PuzzleState.status p' = solved in
      (CryptoPuzzle.type q = lit "cipher-decode" ->
       (shown <-> success (solveCipherPuzzle q) = true))
      /\ (CryptoPuzzle.type q = lit "pattern-analysis" ->
          (shown <-> exists r, solvePatternPuzzle fuel q = Some r
                               /\ success r = true))
      /\ (CryptoPuzzle.type q = lit "hash-preimage" ->
          (shown <-> exists s, CryptoPuzzle.solution q = Some s
                               /\ s <> [] /\ In s commonInputs))
      /\ (CryptoPuzzle.type q = lit "bitcoin-address"
          \/ CryptoPuzzle.type q = lit "private-key-recovery" ->
          (shown <-> (widthOf q <= 15)%N
                     /\ exists s, CryptoPuzzle.solution q = Some s
                                  /\ s <> []))
      /\ (~ In (CryptoPuzzle.type q) knownTypes -> ~ shown).
Proof.
  intros fuel rnd puzzles puzzleId e puzzles' Hf Hd H p' Hp' Hid q shown.
  rewrite (handleSolvePuzzle_found _ _ _ _ e Hf Hd) in H. fold q in H.
  destruct (solvePuzzleWithAI fuel rnd q) as [r|] eqn:Hr; [|discriminate].
  cbn [option_map] in H. injection H as <-.
  destruct (upd_In_id _ _ _ _ Hp' Hid) as [p [_ [_ ->]]].
  assert (Hshown : shown <-> solvedBy r = true).
  { unfold shown. rewrite settled_status.
    destruct (solvedBy r); split; congruence. }
  rewrite Hshown. clear Hshown shown Hp' Hid.
  split; [|split; [|split; [|split]]].
  - intros Ht. rewrite (dispatch_cipher _ _ _ Ht) in Hr. injection Hr as <-.
    now rewrite solvedBy_cipher.
  - intros Ht. rewrite (dispatch_pattern _ _ _ Ht) in Hr.
    rewrite (solvedBy_pattern _ _ _ Hr). split.
    + intros Hs. now exists r.
    + intros [r' [Hr' Hs]]. congruence.
  - intros Ht. rewrite (dispatch_hash _ _ _ Ht) in Hr. injection Hr as <-.
    apply solvedBy_hashLoop.
  - intros Ht. rewrite (dispatch_keyspace _ _ _ Ht) in Hr. injection Hr as <-.
    apply solvedBy_keyspace.
  - intros Ht. rewrite (dispatch_default _ _ _ Ht) in Hr. injection Hr as <-.
    unfold solvedBy, unknownOutcome. cbn. discriminate.
Qed.

Lemma X20_shown_as_solved_witness :
  match handleSolvePuzzle 0 (S754_zero false)
          (initialPuzzles cryptoPuzzles) 16 with
  | Some puzzles' =>
      Forall (fun p' => stateId p' = 16 -> PuzzleState.status p' <> solved)
             puzzles'
  | None => False
  end.
Proof.
  destruct (handleSolvePuzzle 0 (S754_zero false)
              (initialPuzzles cryptoPuzzles) 16) as [puzzles'|] eqn:H;
    [|vm_compute in H; discriminate H].
  apply Forall_forall. intros p' Hp' Hid Hs.
  destruct (proj1 (proj2 (proj2 (proj2
              (X20_shown_as_solved 0 (S754_zero false)
                 (initialPuzzles cryptoPuzzles) 16
                 (PuzzleState.mk
                    (catalogueEntry 16 "bitcoin-address" medium
                       "16JrGhLx5bcBSA34kew9V6Mufa4aXhFe9X" None (Some 10%N))
                    unsolved None)
                 puzzles'
                 ltac:(reflexivity) ltac:(discriminate) H p' Hp' Hid))))
              ltac:(left; reflexivity)) as [Hshown _].
  destruct (Hshown Hs) as [_ [s [Hsol _]]]. discriminate Hsol.
Defined.

(** ** The automatic pick *)

Lemma id_determines (l : list PuzzleState.t) (a b : PuzzleState.t) :
  NoDup (map stateId l) -> In a l -> In b l -> stateId a = stateId b ->
  a = b.
Proof.
  induction l as [|x l IH]; intros Hnd Ha Hb Hid; [contradiction|].
  cbn [map] in Hnd. apply NoDup_cons_iff in Hnd as [Hx Hl].
  destruct Ha as [<-|Ha], Hb as [<-|Hb]; try reflexivity.
  - exfalso. apply Hx. rewrite Hid. now apply in_map.
  - exfalso. apply Hx. rewrite <- Hid. now apply in_map.
  - now apply IH.
Qed.

(** Whether an outcome counts as solved does not depend on the random
    draw. *)
Lemma solvedBy_any_draw (fuel : nat) (rnd rnd' : spec_float)
  (q : CryptoPuzzle.t) (r : SolverResult.t) :
  solvePuzzleWithAI fuel rnd q = Some r ->
  exists r', solvePuzzleWithAI fuel rnd' q = Some r'
             /\ solvedBy r' = solvedBy r.
Proof.
  assert (Hkey : solvedBy (solveBitcoinPuzzle rnd' q)
                 = solvedBy (solveBitcoinPuzzle rnd q)).
  { unfold solvedBy. rewrite !solveBitcoinPuzzle_success.
    unfold solveBitcoinPuzzle. now destruct (20 <? _)%N. }
  unfold solvePuzzleWithAI.
  repeat match goal with
  | |- context [if str_eqb ?a ?b then _ else _] => destruct (str_eqb a b)
  end; intros H; try (exists r; split; [exact H | reflexivity]).
  - injection H as <-. eexists. split; [reflexivity | exact Hkey].
  - injection H as <-. eexists. split; [reflexivity | exact Hkey].
Qed.

Lemma settled_unsolved (r : SolverResult.t) (e : PuzzleState.t) :
  solvedBy r = false -> PuzzleState.status e = unsolved -> settled r e = e.
Proof.
  intros Hr Hs. unfold settled. rewrite Hr. destruct e as [en st fs].
  cbn in *. now subst st.
Qed.

(** X21.  The automatic pick of [handleToggleSolver] (solver not
    running), on a state whose ids are distinct.  When it returns,
    either a puzzle that was not solved is now shown as solved, or the
    state is exactly as before; and in the second case the next toggle
    leaves the state as it is again, whatever the random draw: the
    pick is the same puzzle and it fails in the same way, so no later
    puzzle is ever tried. *)
Theorem X21_toggle_repeats_failed_pick :
  forall (fuel : nat) (rnd : spec_float)
         (puzzles puzzles' : list PuzzleState.t),
    NoDup (map stateId puzzles) ->
    handleToggleSolver fuel rnd false puzzles = Some puzzles' ->
    (exists p', In p' puzzles' /\ PuzzleState.status p' = solved
                /\ ~ In p' puzzles)
    \/ (puzzles' = puzzles
        /\ forall rnd',
             handleToggleSolver fuel rnd' false puzzles = Some puzzles).
Proof.
  intros fuel rnd puzzles puzzles' Hnd H. unfold handleToggleSolver in *.
  destruct (find _ puzzles) as [e0|] eqn:Hpick.
  2:{ right. split; [congruence | reflexivity]. }
  apply find_some in Hpick as [Hin0 Hcond].
  apply andb_true_iff in Hcond as [Hst Hd].
  apply status_eqb_eq in Hst. apply negb_true_iff in Hd.
  assert (Hd' : Entry.difficulty (PuzzleState.entry e0) <> impossible).
  { intros Heq. apply difficulty_eqb_eq in Heq. congruence. }
  pose proof (find_id_spec (stateId e0) puzzles) as Hfind.
  destruct (find (fun p => stateId p =? stateId e0) puzzles) as [e|] eqn:Hf;
    [|exfalso; exact (Hfind e0 Hin0 eq_refl)].
  destruct Hfind as [Hin Hid].
  assert (e = e0) as -> by exact (id_determines _ _ _ Hnd Hin Hin0 Hid).
  rewrite (handleSolvePuzzle_found _ _ _ _ e0 Hf Hd') in H.
  destruct (solvePuzzleWithAI fuel rnd _) as [r|] eqn:Hr; [|discriminate].
  cbn [option_map] in H. injection H as <-.
  destruct (solvedBy r) eqn:Hsolved.
  - left. exists (settled r e0). split; [|split].
    + now apply upd_In_intro.
    + now rewrite settled_status, Hsolved.
    + intros Hold.
      assert (Heq : settled r e0 = e0).
      { apply (id_determines _ _ _ Hnd Hold Hin0). unfold stateId.
        now rewrite settled_entry. }
      pose proof (settled_status r e0) as Hss.
      rewrite Heq, Hsolved, Hst in Hss. discriminate.
  - right. split.
    + apply (upd_fixed _ _ puzzles e0 Hnd Hin0 eq_refl).
      now apply settled_unsolved.
    + intros rnd'.
      rewrite (handleSolvePuzzle_found _ _ _ _ e0 Hf Hd').
      destruct (solvedBy_any_draw _ _ rnd' _ _ Hr) as [r' [-> Hr']].
      cbn [option_map]. f_equal.
      apply (upd_fixed _ _ puzzles e0 Hnd Hin0 eq_refl).
      apply settled_unsolved; [congruence | exact Hst].
Qed.

Lemma X21_toggle_repeats_failed_pick_witness :
  let toggle := fun o =>
    match o with
    | Some s => handleToggleSolver 50 (S754_zero false) false s
    | None => None
    end in
  match toggle (toggle (Some (initialPuzzles cryptoPuzzles))) with
  | Some s => handleToggleSolver 50 point7 false s = Some s
  | None => False
  end.
Proof.
  intros toggle.
  destruct (toggle (toggle (Some (initialPuzzles cryptoPuzzles))))
    as [s|] eqn:E; [|vm_compute in E; discriminate E].
  assert (Hnd : NoDup (map stateId s)).
  { vm_compute in E. injection E as <-. vm_compute.
    repeat (apply NoDup_cons; [simpl; lia|]). apply NoDup_nil. }
  assert (H : handleToggleSolver 50 (S754_zero false) false s = Some s).
  { vm_compute in E. injection E as <-. vm_compute. reflexivity. }
  destruct (X21_toggle_repeats_failed_pick 50 (S754_zero false) s s Hnd H)
    as [[p' [Hin [_ Hnot]]]|[_ Hall]]; [contradiction | exact (Hall point7)].
Defined.
